(** * wcomposables: a shallow embedding of the composables and their properties

    The development follows the TypeScript sources:
    - [useSort]          (src/data/utils/useSort.ts)
    - [useScroll], [useWindowSize], [useIdle] (listener life cycle)
    - [useLocalStorage]  (the [read] closure)
    - [useGenerator]     ([next] / [reset])
    and the pagination stage of [useTable], whose source is modelled from
    the specification.

    JavaScript arrays are mutable objects: they live in a store and are
    passed by reference, so that "a new array" and "the input array is left
    unchanged" are statements about that store. *)

From Stdlib Require Import ZArith Lia.
From stdpp Require Import base tactics option list sets sorting strings.

Local Open Scope Z_scope.

(** ** ECMAScript arrays *)

Module JsArray.

Section Store.
Context {T : Type}.

(** An array reference is an address in the array store. *)
Definition ref := nat.

(** The store of all live arrays; the array at address [r] is [h !! r]. *)
Definition store := list (list T).

(** Array creation: the new array gets an address no live array has. *)
Definition alloc (h : store) (a : list T) : store * ref :=
  (h ++ [a], length h).

(** [[...xs]]: a new array holding the elements of the array at [r]. *)
Definition spread (h : store) (r : ref) : option (store * ref) :=
  a ← h !! r; Some (alloc h a).

(** A comparator, as handed to [Array.prototype.sort]: negative when the
    first argument goes first, positive when the second does.  It is a
    function of its two arguments: it returns a number for every pair and
    changes nothing. *)
Definition comparator := T → T → Z.

(** [Array.prototype.sort] is a builtin of the runtime.  ECMAScript (2019
    and later) requires it to be stable, and to order the elements
    whenever the comparator is consistent; what it does for other
    comparators is left to the implementation.  It is modelled by the
    stable insertion sort: [x] is placed before the first element that
    does not compare below it.  For a consistent comparator this is the
    order the standard prescribes ([sort_by_sorted], [sort_by_stable] and
    [sort_by_perm] below); the elements are values other than
    [undefined], which [sort] moves to the end without a comparison. *)
Fixpoint sort_insert (cmp : comparator) (x : T) (l : list T) : list T :=
  match l with
  | [] => [x]
  | y :: l' => if Z.leb (cmp x y) 0 then x :: y :: l'
               else y :: sort_insert cmp x l'
  end.

Fixpoint sort_by (cmp : comparator) (l : list T) : list T :=
  match l with
  | [] => []
  | x :: l' => sort_insert cmp x (sort_by cmp l')
  end.

(** [arr.sort(cmp)] sorts the array at [r] in place and returns [r]. *)
Definition array_sort (cmp : comparator) (h : store) (r : ref)
  : option (store * ref) :=
  a ← h !! r; Some (<[r := sort_by cmp a]> h, r).

(** The comparator is consistent on the values [S] (ECMAScript, 23.1.3.30):
    [=], [<] and [>] as read off [cmp] split [S] into totally ordered
    classes. *)
Record consistent (cmp : comparator) (S : list T) : Prop := {
  cmp_refl : ∀ a, a ∈ S → cmp a a = 0;
  cmp_sym : ∀ a b, a ∈ S → b ∈ S → cmp a b = 0 → cmp b a = 0;
  cmp_eq_trans : ∀ a b c, a ∈ S → b ∈ S → c ∈ S →
    cmp a b = 0 → cmp b c = 0 → cmp a c = 0;
  cmp_lt_trans : ∀ a b c, a ∈ S → b ∈ S → c ∈ S →
    cmp a b < 0 → cmp b c < 0 → cmp a c < 0;
  cmp_gt_trans : ∀ a b c, a ∈ S → b ∈ S → c ∈ S →
    cmp a b > 0 → cmp b c > 0 → cmp a c > 0
}.

(** [x] goes no later than [y]. *)
Definition cmp_le (cmp : comparator) (x y : T) : Prop := cmp x y ≤ 0.

End Store.

Arguments store : clear implicits.
Arguments comparator : clear implicits.

End JsArray.

(** ** useSort (src/data/utils/useSort.ts) *)

Module UseSort.
Import JsArray.

Inductive order := asc | desc.

Section UseSort.
(** [T] is the item type and [K] stands for [keyof T]. *)
Context {T K : Type} `{EqDecision K}.

Record SortOption := {
  key : string;
  label : string;
  opt_compareFn : option (comparator T)
}.

(** What the closures of one [useSort(items, compareFn)] call capture:
    the caller's array (by reference) and the optional comparator. *)
Record instance := {
  items : ref;
  compareFn : option (comparator T)
}.

(** The four [ref]s created by [useSort]. *)
Record refs := {
  sortBy : option K;
  sortOrder : order;
  currentSort : option (K * order);
  sortOptions : list SortOption
}.

Definition useSort (items : ref) (compareFn : option (comparator T))
  : instance * refs :=
  ({| items := items; compareFn := compareFn |},
   {| sortBy := None; sortOrder := asc; currentSort := None;
      sortOptions := [] |}).

(** The getter of the [sortedItems] computed:
    [if (!compareFn) return [...items]; return [...items].sort(compareFn)].
    It runs in the array store and returns the reference of its result;
    the [refs] are in scope of the closure. *)
Definition sortedItems (u : instance) (s : refs) (h : store T)
  : option (store T * ref) :=
  match compareFn u with
  | None => spread h (items u)
  | Some f => '(h1, c) ← spread h (items u); array_sort f h1 c
  end.

(** The elements of the array a run returned. *)
Definition contents (res : option (store T * ref)) : option (list T) :=
  '(h, r) ← res; h !! r.

(** The sort stage applied to its own output: a second [useSort] over the
    array the first one returned, with the same comparator and the same
    sort state. *)
Definition resort (u : instance) (s : refs) (h : store T)
  : option (store T * ref) :=
  '(h1, r1) ← sortedItems u s h;
  sortedItems {| items := r1; compareFn := compareFn u |} s h1.

Definition clearSort (s : refs) : refs :=
  {| sortBy := None; sortOrder := asc; currentSort := None;
     sortOptions := sortOptions s |}.

Definition isSortedBy (s : refs) (k : K) : bool :=
  bool_decide (sortBy s = Some k).

Definition getSortDirection (s : refs) (k : K) : option order :=
  if isSortedBy s k then Some (sortOrder s) else None.

Definition addSortOption (o : SortOption) (s : refs) : refs :=
  {| sortBy := sortBy s; sortOrder := sortOrder s;
     currentSort := currentSort s; sortOptions := sortOptions s ++ [o] |}.

Definition removeSortOption (k : string) (s : refs) : refs :=
  {| sortBy := sortBy s; sortOrder := sortOrder s;
     currentSort := currentSort s;
     sortOptions := filter (λ o, key o ≠ k) (sortOptions s) |}.

(** What a caller can do to the sort state between two reads of
    [sortedItems]: assign [sortBy.value], assign [sortOrder.value], call
    [clearSort()]. *)
Inductive action :=
  | SetSortBy (k : option K)
  | SetSortOrder (o : order)
  | ClearSort.

Definition apply_action (s : refs) (a : action) : refs :=
  match a with
  | SetSortBy k =>
      {| sortBy := k; sortOrder := sortOrder s;
         currentSort := currentSort s; sortOptions := sortOptions s |}
  | SetSortOrder o =>
      {| sortBy := sortBy s; sortOrder := o;
         currentSort := currentSort s; sortOptions := sortOptions s |}
  | ClearSort => clearSort s
  end.

Definition run (acts : list action) (s : refs) : refs :=
  foldl apply_action s acts.

(** *** The sort stage as the specification words it *)

(** The values a field of a row can hold. *)
Inductive fieldval :=
  | FNum (n : Z)
  | FStr (s : string)
  | FDate (ms : Z)
  | FBool (b : bool).

(** Native ordering: numeric for numbers, string order for strings (code
    unit order stands for the locale's), chronological for dates. *)
Definition native_compare (a b : fieldval) : Z :=
  match a, b with
  | FNum x, FNum y => x - y
  | FStr x, FStr y =>
      match String.compare x y with Lt => -1 | Eq => 0 | Gt => 1 end
  | FDate x, FDate y => x - y
  | _, _ => 0
  end.

(** Field access [row[key]]. *)
Variable field : K → T → fieldval.

(** Sort stage of the specification for a collection with an active key
    and no custom comparator: native ordering of the key's field values,
    ascending, reversed when descending. *)
Definition spec_native_sort (k : K) (o : order) (rows : list T) : list T :=
  let up := sort_by (λ a b, native_compare (field k a) (field k b)) rows in
  match o with asc => up | desc => reverse up end.

End UseSort.

Arguments instance : clear implicits.
Arguments refs : clear implicits.
Arguments SortOption : clear implicits.
Arguments action : clear implicits.

(** *** The rows of useSort.test.ts *)

Record User := {
  id : Z; name : string; age : Z; active : bool; createdAt : Z
}.

Inductive UserKey := k_id | k_name | k_age | k_active | k_createdAt.

#[global] Instance UserKey_eq_dec : EqDecision UserKey :=
  ltac:(solve_decision).

Definition user_field (k : UserKey) (u : User) : fieldval :=
  match k with
  | k_id => FNum (id u)
  | k_name => FStr (name u)
  | k_age => FNum (age u)
  | k_active => FBool (active u)
  | k_createdAt => FDate (createdAt u)
  end.

Definition alice : User :=
  {| id := 1; name := "Alice"; age := 30; active := true;
     createdAt := 1672531200000 |}.
Definition bob : User :=
  {| id := 2; name := "Bob"; age := 25; active := false;
     createdAt := 1672617600000 |}.
Definition charlie : User :=
  {| id := 3; name := "Charlie"; age := 35; active := true;
     createdAt := 1672704000000 |}.
Definition users : list User := [alice; bob; charlie].

(** A store that holds only the [users] array, at address 0. *)
Definition users_store : store User := [users].

(** [useSort(users)], no sort key selected. *)
Definition users_no_key : instance User * refs User UserKey :=
  useSort 0%nat None.

(** [useSort(users)] after [sortBy.value = 'age']. *)
Definition by_age_no_comparator : instance User * refs User UserKey :=
  let '(u, s) := useSort 0%nat None in (u, apply_action s (SetSortBy (Some k_age))).

(** [(a, b) => a.age - b.age], the comparator of the number-field test. *)
Definition by_age : comparator User := λ a b, age a - age b.

(** [useSort(users, (a, b) => a.age - b.age)]. *)
Definition users_by_age : instance User * refs User UserKey :=
  useSort 0%nat (Some by_age).

(** A store that holds only the array [[3, 1, 2]], at address 0. *)
Definition numbers_store : store Z := [[3; 1; 2]].

(** [(a, b) => a - b] on numbers. *)
Definition numeric : comparator Z := λ a b, a - b.

(** [(a, b) => a <= 2 && b <= 2 ? 1 : a >= 3 && b >= 3 ? -1 : a - b]:
    numeric between the small numbers (up to 2) and the large ones (from
    3), but within the small ones the first argument is always reported
    greater, and within the large ones always less.  Whichever of two
    neighbours a sort hands over first, it is told that one of the pairs
    1, 2 and 3, 4 is out of order. *)
Definition two_faced : comparator Z := λ a b,
  if (a <=? 2) && (b <=? 2) then 1
  else if (3 <=? a) && (3 <=? b) then -1
  else a - b.

(** [useSort([3, 1, 2], (a, b) => a - b)], no sort key selected. *)
Definition numeric_no_key : instance Z * refs Z string :=
  useSort 0%nat (Some numeric).

(** [useSort([1, 2, 3, 4], two_faced)], no sort key selected. *)
Definition two_faced_sort : instance Z * refs Z string :=
  useSort 0%nat (Some two_faced).

(** A store that holds only the array [[1, 2, 3, 4]], at address 0. *)
Definition ascending_store : store Z := [[1; 2; 3; 4]].

End UseSort.

(** ** The paginate stage of useTable *)

Module Pagination.

(** Modelled from the spec: the pagination state of [useTable] /
    [usePagination] (src/data/tables/usePagination.ts and useTable.ts are
    exported by index.ts but are not among the sources):
    "{ currentPage (1-based), pageSize }". *)
Record state := {
  currentPage : Z;
  pageSize : Z
}.

(** Modelled from the spec: "total page count = ceil(totalItems /
    pageSize) (minimum 1 page even when empty)"; [usePagination] is not
    among the sources. *)
Definition totalPages (totalItems : Z) (p : state) : Z :=
  Z.max 1 (- ((- totalItems) / pageSize p)).

(** Modelled from the spec: "clamp the resulting page into
    [1, totalPages]"; [usePagination] is not among the sources. *)
Definition clamp (total : Z) (n : Z) : Z := Z.max 1 (Z.min n total).

(** Modelled from the spec: the [setPage(n)] navigation operation, which
    clamps the requested page "rather than erroring on out-of-range
    requests"; [usePagination] is not among the sources. *)
Definition setPage (totalItems : Z) (n : Z) (p : state) : state :=
  {| currentPage := clamp (totalPages totalItems p) n;
     pageSize := pageSize p |}.

(** Modelled from the spec: the [first] navigation operation of
    [usePagination] (not among the sources), clamped like [setPage]. *)
Definition firstPage (totalItems : Z) (p : state) : state :=
  setPage totalItems 1 p.

(** Modelled from the spec: the [prev] navigation operation of
    [usePagination] (not among the sources), clamped like [setPage]. *)
Definition prevPage (totalItems : Z) (p : state) : state :=
  setPage totalItems (currentPage p - 1) p.

(** Modelled from the spec: the [next] navigation operation of
    [usePagination] (not among the sources), clamped like [setPage]. *)
Definition nextPage (totalItems : Z) (p : state) : state :=
  setPage totalItems (currentPage p + 1) p.

(** Modelled from the spec: the [last] navigation operation of
    [usePagination] (not among the sources), clamped like [setPage]. *)
Definition lastPage (totalItems : Z) (p : state) : state :=
  setPage totalItems (totalPages totalItems p) p.

(** Modelled from the spec: "changing filters or page size resets
    currentPage to 1"; [usePagination] is not among the sources. *)
Definition setPageSize (size : Z) (p : state) : state :=
  {| currentPage := 1; pageSize := size |}.

(** Modelled from the spec: the scenario of its section 8, twelve rows
    shown five to a page, the view on page 2. *)
Definition twelve_rows_page_2 : state := {| currentPage := 2; pageSize := 5 |}.

End Pagination.

(** ** Event targets and timers of the browser *)

Module Dom.

Inductive target := Window | Document | Element (node : nat).

(** A callback is a function object; listeners are compared by the
    identity of their callback, which is what [callback] stands for. *)
Definition callback := nat.

(** An entry of an event target's listener list (DOM standard, 2.7): its
    key is the type, the callback and the capture flag. *)
Record listener := {
  l_target : target;
  l_type : string;
  l_callback : callback;
  l_capture : bool
}.

#[global] Instance target_eq_dec : EqDecision target := ltac:(solve_decision).
#[global] Instance listener_eq_dec : EqDecision listener := ltac:(solve_decision).

(** The third argument of [addEventListener]; of its members only
    [capture] is part of a listener's key. *)
Record AddEventListenerOptions := {
  capture : bool;
  passive : bool
}.

Definition passive_true : AddEventListenerOptions :=
  {| capture := false; passive := true |}.

(** The part of the browser the composables act on: the listeners of all
    event targets and the pending timers. *)
Record browser := {
  listeners : list listener;
  timers : list nat;
  next_timer : nat
}.

(** [target.addEventListener(type, callback, options)]: appended unless a
    listener with the same key is there already. *)
Definition addEventListener (t : target) (type : string) (cb : callback)
    (o : AddEventListenerOptions) (b : browser) : browser :=
  let l := {| l_target := t; l_type := type; l_callback := cb;
              l_capture := capture o |} in
  {| listeners := if decide (l ∈ listeners b) then listeners b
                  else listeners b ++ [l];
     timers := timers b; next_timer := next_timer b |}.

(** [target.removeEventListener(type, callback)]: no options, so the
    capture flag of the key is [false].  A listener list holds no key
    twice, so removing the listener with that key is filtering on it. *)
Definition removeEventListener (t : target) (type : string) (cb : callback)
    (b : browser) : browser :=
  let l := {| l_target := t; l_type := type; l_callback := cb;
              l_capture := false |} in
  {| listeners := filter (λ l', l' ≠ l) (listeners b);
     timers := timers b; next_timer := next_timer b |}.

(** [setTimeout(f, ms)]: a new pending timer and its identifier. *)
Definition setTimeout (b : browser) : nat * browser :=
  (next_timer b,
   {| listeners := listeners b; timers := timers b ++ [next_timer b];
      next_timer := S (next_timer b) |}).

(** [clearTimeout(id)]; [None] is an [undefined] or [null] identifier, for
    which nothing happens. *)
Definition clearTimeout (id : option nat) (b : browser) : browser :=
  match id with
  | None => b
  | Some i =>
      {| listeners := listeners b; timers := filter (λ j, j ≠ i) (timers b);
         next_timer := next_timer b |}
  end.

(** A timer has run: it is pending no more. *)
Definition timer_done (id : option nat) (b : browser) : browser :=
  clearTimeout id b.

(** Whether the timer [id] is still to run. *)
Definition pending (id : option nat) (b : browser) : bool :=
  match id with
  | None => false
  | Some i => bool_decide (i ∈ timers b)
  end.

(** No listener of the page has the callback [cb]: the case of a closure
    that was just created and handed to nobody. *)
Definition unused (cb : callback) (b : browser) : Prop :=
  Forall (λ l, l_callback l ≠ cb) (listeners b).

Definition listener_of (t : target) (type : string) (cb : callback)
  : listener :=
  {| l_target := t; l_type := type; l_callback := cb; l_capture := false |}.

End Dom.

(** ** useScroll *)

Module UseScroll.
Import Dom.

Inductive direction := up | down | left | right.

Record arrived := {
  top : bool; bottom : bool; at_left : bool; at_right : bool
}.

(** What [getScrollPosition()] reads off the target. *)
Record position := { pos_x : Z; pos_y : Z; maxX : Z; maxY : Z }.

(** The refs and the closure variables of one [useScroll] call;
    [updateScrollState_fn] is the identity of the [updateScrollState] closure. *)
Record state := {
  scroll_target : target;
  updateScrollState_fn : callback;
  x : Z;
  y : Z;
  isScrolling : bool;
  scrollDirection : option direction;
  arrivedState : arrived;
  lastScrollX : Z;
  lastScrollY : Z;
  scrollTimeout : option nat
}.

Definition useScroll (t : target) (handler : callback) : state :=
  {| scroll_target := t; updateScrollState_fn := handler;
     x := 0; y := 0; isScrolling := false; scrollDirection := None;
     arrivedState := {| top := true; bottom := false;
                        at_left := true; at_right := false |};
     lastScrollX := 0; lastScrollY := 0; scrollTimeout := None |}.

(** The body of [updateScrollState], run on the position the target has. *)
Definition updateScrollState (p : position) (st : state) (b : browser)
  : state * browser :=
  let dir :=
    if pos_y p >? lastScrollY st then Some down
    else if pos_y p <? lastScrollY st then Some up
    else if pos_x p >? lastScrollX st then Some right
    else if pos_x p <? lastScrollX st then Some left
    else scrollDirection st in
  let '(id, b') := setTimeout (clearTimeout (scrollTimeout st) b) in
  ({| scroll_target := scroll_target st;
      updateScrollState_fn := updateScrollState_fn st;
      x := pos_x p; y := pos_y p; isScrolling := true;
      scrollDirection := dir;
      arrivedState := {| top := pos_y p <=? 0; bottom := pos_y p >=? maxY p;
                         at_left := pos_x p <=? 0;
                         at_right := pos_x p >=? maxX p |};
      lastScrollX := pos_x p; lastScrollY := pos_y p;
      scrollTimeout := Some id |}, b').

(** The timer callback [() => { isScrolling.value = false }]. *)
Definition scroll_timer (st : state) (b : browser) : state * browser :=
  ({| scroll_target := scroll_target st;
      updateScrollState_fn := updateScrollState_fn st;
      x := x st; y := y st; isScrolling := false;
      scrollDirection := scrollDirection st;
      arrivedState := arrivedState st;
      lastScrollX := lastScrollX st; lastScrollY := lastScrollY st;
      scrollTimeout := scrollTimeout st |},
   timer_done (scrollTimeout st) b).

Definition onMounted (p : position) (st : state) (b : browser)
  : state * browser :=
  let '(st', b') := updateScrollState p st b in
  (st', addEventListener (scroll_target st') "scroll"
          (updateScrollState_fn st') passive_true b').

Definition onUnmounted (st : state) (b : browser) : state * browser :=
  (st, clearTimeout (scrollTimeout st)
         (removeEventListener (scroll_target st) "scroll"
            (updateScrollState_fn st) b)).

(** What happens to a mounted instance: a scroll event reaches the
    handler, or the timer runs (a timer runs only while it is pending). *)
Inductive event := Scrolled (p : position) | TimerRan.

Definition deliver (sb : state * browser) (e : event) : state * browser :=
  match e with
  | Scrolled p => updateScrollState p sb.1 sb.2
  | TimerRan =>
      if pending (scrollTimeout sb.1) sb.2 then scroll_timer sb.1 sb.2
      else sb
  end.

(** Mount, the events in turn, unmount. *)
Definition lifetime (p : position) (evs : list event) (st : state)
    (b : browser) : state * browser :=
  let sb := foldl deliver (onMounted p st b) evs in onUnmounted sb.1 sb.2.

(** What the handler and the timer leave alone: the target, the handler
    and the listeners of the page. *)
Definition scroll_frame (sb sb' : state * browser) : Prop :=
  scroll_target sb'.1 = scroll_target sb.1
  ∧ updateScrollState_fn sb'.1 = updateScrollState_fn sb.1
  ∧ listeners sb'.2 = listeners sb.2.

End UseScroll.

(** ** useWindowSize *)

Module UseWindowSize.
Import Dom.

(** [window.innerWidth] and [window.innerHeight] at some moment. *)
Record inner := { innerWidth : Z; innerHeight : Z }.

Record state := {
  updateSize_fn : callback;
  width : Z;
  height : Z
}.

Definition useWindowSize (initialWidth initialHeight : option Z)
    (handler : callback) : state :=
  {| updateSize_fn := handler;
     width := default 0 initialWidth; height := default 0 initialHeight |}.

Definition updateSize (w : inner) (st : state) : state :=
  {| updateSize_fn := updateSize_fn st;
     width := innerWidth w; height := innerHeight w |}.

Definition onMounted (w : inner) (st : state) (b : browser)
  : state * browser :=
  let st' := updateSize w st in
  (st', addEventListener Window "resize" (updateSize_fn st') passive_true b).

Definition onUnmounted (st : state) (b : browser) : state * browser :=
  (st, removeEventListener Window "resize" (updateSize_fn st) b).

Definition deliver (sb : state * browser) (w : inner) : state * browser :=
  (updateSize w sb.1, sb.2).

Definition lifetime (w : inner) (resizes : list inner) (st : state)
    (b : browser) : state * browser :=
  let sb := foldl deliver (onMounted w st b) resizes in
  onUnmounted sb.1 sb.2.

End UseWindowSize.

(** ** useIdle (src/events/useIdle.ts) *)

Module UseIdle.
Import Dom.

Record UseIdleOptions := {
  opt_timeout : option Z;
  opt_events : option (list string);
  opt_initialState : option bool
}.

Definition default_events : list string :=
  ["mousedown"; "mousemove"; "keypress"; "scroll"; "touchstart"; "click"].

(** The constants and refs of one [useIdle] call.  [events] is the
    caller's array; it is taken to hold the same types at the unmount as
    at the mount. *)
Record state := {
  timeout : Z;
  events : list string;
  initialState : bool;
  handleActivity_fn : callback;
  idle : bool;
  lastActive : Z;
  timeoutId : option nat
}.

(** [now] is what [Date.now()] returns at the call. *)
Definition useIdle (o : UseIdleOptions) (handler : callback) (now : Z)
  : state :=
  {| timeout := default 60000 (opt_timeout o);
     events := default default_events (opt_events o);
     initialState := default false (opt_initialState o);
     handleActivity_fn := handler;
     idle := default false (opt_initialState o);
     lastActive := now; timeoutId := None |}.

Definition with_refs (st : state) (i : bool) (l : Z) (t : option nat)
  : state :=
  {| timeout := timeout st; events := events st;
     initialState := initialState st; handleActivity_fn := handleActivity_fn st;
     idle := i; lastActive := l; timeoutId := t |}.

(** The body of [handleActivity]. *)
Definition handleActivity (now : Z) (st : state) (b : browser)
  : state * browser :=
  let '(id, b') := setTimeout (clearTimeout (timeoutId st) b) in
  (with_refs st false now (Some id), b').

(** The timer callback [() => { idle.value = true; timeoutId = null }]. *)
Definition idle_timer (st : state) (b : browser) : state * browser :=
  (with_refs st true (lastActive st) None, timer_done (timeoutId st) b).

Definition start (now : Z) (st : state) (b : browser) : state * browser :=
  handleActivity now st b.

Definition stop (st : state) (b : browser) : state * browser :=
  (with_refs st (idle st) (lastActive st) None, clearTimeout (timeoutId st) b).

Definition reset (now : Z) (st : state) (b : browser) : state * browser :=
  let '(st', b') := stop st b in
  (with_refs st' (initialState st') now (timeoutId st'), b').

Definition onMounted (now : Z) (st : state) (b : browser)
  : state * browser :=
  let '(st', b') := if initialState st then (st, b) else start now st b in
  (st', foldl (λ b0 ev, addEventListener Document ev (handleActivity_fn st')
                          passive_true b0) b' (events st')).

Definition onUnmounted (st : state) (b : browser) : state * browser :=
  let '(st', b') := stop st b in
  (st', foldl (λ b0 ev, removeEventListener Document ev (handleActivity_fn st')
                          b0) b' (events st')).

(** What happens to a mounted instance: an activity event reaches the
    handler, the timer runs (only while it is pending), or the component
    calls [start], [stop] or [reset]. *)
Inductive event :=
  | Activity (now : Z)
  | TimerRan
  | Start (now : Z)
  | Stop
  | Reset (now : Z).

Definition deliver (sb : state * browser) (e : event) : state * browser :=
  match e with
  | Activity now => handleActivity now sb.1 sb.2
  | TimerRan =>
      if pending (timeoutId sb.1) sb.2 then idle_timer sb.1 sb.2 else sb
  | Start now => start now sb.1 sb.2
  | Stop => stop sb.1 sb.2
  | Reset now => reset now sb.1 sb.2
  end.

Definition lifetime (now : Z) (evs : list event) (st : state) (b : browser)
  : state * browser :=
  let sb := foldl deliver (onMounted now st b) evs in onUnmounted sb.1 sb.2.

(** What the handler, the timer and the exposed methods leave alone. *)
Definition idle_frame (sb sb' : state * browser) : Prop :=
  events sb'.1 = events sb.1
  ∧ handleActivity_fn sb'.1 = handleActivity_fn sb.1
  ∧ listeners sb'.2 = listeners sb.2.

End UseIdle.

(** A page that already has two listeners of its own, one of them for
    scroll events of the window. *)
Definition busy_page : Dom.browser :=
  {| Dom.listeners :=
       [ {| Dom.l_target := Dom.Window; Dom.l_type := "scroll";
            Dom.l_callback := 7%nat; Dom.l_capture := false |};
         {| Dom.l_target := Dom.Document; Dom.l_type := "click";
            Dom.l_callback := 8%nat; Dom.l_capture := true |} ];
     Dom.timers := [4%nat]; Dom.next_timer := 5%nat |}.

(** Instances and inputs the examples below run on. *)
Definition scroll_instance : UseScroll.state := UseScroll.useScroll Dom.Window 1%nat.
Definition scrolled_down : UseScroll.position :=
  {| UseScroll.pos_x := 0; UseScroll.pos_y := 120;
     UseScroll.maxX := 0; UseScroll.maxY := 900 |}.
Definition size_instance : UseWindowSize.state :=
  UseWindowSize.useWindowSize None None 2%nat.
Definition desktop : UseWindowSize.inner :=
  {| UseWindowSize.innerWidth := 1024; UseWindowSize.innerHeight := 768 |}.
Definition idle_instance : UseIdle.state :=
  UseIdle.useIdle
    {| UseIdle.opt_timeout := None; UseIdle.opt_events := None;
       UseIdle.opt_initialState := None |} 3%nat 1000.

(** ** useLocalStorage *)

Module UseLocalStorage.

(** A thrown value. *)
Definition Error := string.

(** How the evaluation of an expression completes: normally with a
    value, or abruptly with a thrown error. *)
Inductive completion (A : Type) :=
  | Normal (a : A)
  | Throw (e : Error).
Arguments Normal {A} a.
Arguments Throw {A} e.

(** The [localStorage] of the page: its entries, and whether access to it
    is refused (as on a page that is denied storage, where every access throws). *)
Record Storage := {
  entries : list (string * string);
  refused : option Error
}.

Fixpoint assoc (k : string) (kvs : list (string * string)) : option string :=
  match kvs with
  | [] => None
  | (k', v) :: kvs' => if decide (k' = k) then Some v else assoc k kvs'
  end.

(** [localStorage.getItem(key)]; [None] is JavaScript's [null]. *)
Definition getItem (key : string) (ls : Storage) : completion (option string) :=
  match refused ls with
  | Some e => Throw e
  | None => Normal (assoc key (entries ls))
  end.

(** Code that completes normally or abruptly, and that calls [onError]
    on the way: the errors it was called with are logged in call order. *)
Definition M (A : Type) : Type := list Error → completion A * list Error.

Definition ret {A} (a : A) : M A := λ log, (Normal a, log).

Definition bind {A B} (m : M A) (k : A → M B) : M B :=
  λ log, match m log with
         | (Normal a, log') => k a log'
         | (Throw e, log') => (Throw e, log')
         end.

Definition lift {A} (c : completion A) : M A := λ log, (c, log).

(** [try { body } catch (error) { handler(error) }] *)
Definition try_catch {A} (body : M A) (handler : Error → M A) : M A :=
  λ log, match body log with
         | (Normal a, log') => (Normal a, log')
         | (Throw e, log') => handler e log'
         end.

Section UseLocalStorage.
Context {T : Type}.

(** [JSON.parse], a builtin of the runtime: it returns a value or throws a
    [SyntaxError]. *)
Variable JSON_parse : string → completion T.

Record Serializer := {
  ser_read : string → completion T;
  ser_write : T → completion string
}.

Variable JSON_stringify : T → completion string.

Record UseLocalStorageOptions := {
  opt_defaultValue : option T;
  opt_serializer : option Serializer;
  opt_onError : option (Error → completion unit)
}.

(** The constants one [useLocalStorage(key, initialValue, options)] call
    destructures out of its arguments. *)
Record instance := {
  key : string;
  defaultValue : T;
  serializer : Serializer;
  onError : Error → completion unit
}.

(** The default serializer: a parse that fails gives the default value. *)
Definition default_serializer (defaultValue : T) : Serializer :=
  {| ser_read := λ value,
       match JSON_parse value with
       | Normal v => Normal v
       | Throw _ => Normal defaultValue
       end;
     ser_write := JSON_stringify |}.

(** [console.error(error)] returns normally. *)
Definition console_error (e : Error) : completion unit := Normal tt.

Definition useLocalStorage (key : string) (initialValue : T)
    (o : UseLocalStorageOptions) : instance :=
  let defaultValue := default initialValue (opt_defaultValue o) in
  {| key := key;
     defaultValue := defaultValue;
     serializer := default (default_serializer defaultValue) (opt_serializer o);
     onError := default console_error (opt_onError o) |}.

(** A call of the [onError] callback. *)
Definition call_onError (u : instance) (e : Error) : M unit :=
  λ log, (onError u e, log ++ [e]).

(** The [read] closure. *)
Definition read (u : instance) (ls : Storage) : M T :=
  try_catch
    (bind (lift (getItem (key u) ls)) (λ rawValue,
       match rawValue with
       | None => ret (defaultValue u)
       | Some raw => lift (ser_read (serializer u) raw)
       end))
    (λ error, bind (call_onError u error) (λ _, ret (defaultValue u))).

End UseLocalStorage.

Arguments Serializer : clear implicits.
Arguments UseLocalStorageOptions : clear implicits.
Arguments instance : clear implicits.

(** A storage every access to which throws. *)
Definition refusing : Storage :=
  {| entries := []; refused := Some "SecurityError" |}.

(** [JSON.parse] on the two texts the examples use. *)
Definition parse_number (s : string) : completion Z :=
  if decide (s = "42") then Normal 42 else Throw "SyntaxError".

Definition stringify_number (n : Z) : completion string :=
  if decide (n = 42) then Normal "42" else Normal "0".

(** [useLocalStorage('count', 0, { onError: e => { throw e } })] *)
Definition rethrowing : instance Z :=
  useLocalStorage parse_number stringify_number "count" 0
    {| opt_defaultValue := None; opt_serializer := None;
       opt_onError := Some (λ e, Throw e) |}.

(** [useLocalStorage('count', 0)] *)
Definition with_defaults : instance Z :=
  useLocalStorage parse_number stringify_number "count" 0
    {| opt_defaultValue := None; opt_serializer := None;
       opt_onError := None |}.

End UseLocalStorage.

(** ** useGenerator *)

Module UseGenerator.

Section UseGenerator.
(** [T] is the type of the generated values; [truthy] tells which of them
    JavaScript takes for true in a condition ([0], [''], [NaN], [null] and
    [false] are not).  [G] is what the [getNext] closure keeps between its
    calls (the index of [useArrayGenerator], for one). *)
Context {T G : Type}.
Variable truthy : T → bool.

(** A JavaScript value of type [T], or [undefined].  Values are taken by
    content: the reactive wrapper Vue puts around an object held in a ref
    is not told apart from the object. *)
Inductive value :=
  | undefined
  | val (t : T).

Definition is_truthy (v : value) : bool :=
  match v with undefined => false | val t => truthy t end.

Record UseGeneratorOptions := {
  initial : value;
  getNext : G → value → value * G
}.

(** The refs [current] and [history] and the state of [getNext]. *)
Record state := {
  current : value;
  history : list value;
  closure : G
}.

Definition useGenerator (o : UseGeneratorOptions) (g : G) : state :=
  {| current := initial o;
     history := if is_truthy (initial o) then [initial o] else [];
     closure := g |}.

(** [next()]: the value it returns and the state it leaves. *)
Definition next (o : UseGeneratorOptions) (st : state) : value * state :=
  let '(nextValue, g) := getNext o (closure st) (current st) in
  (nextValue,
   {| current := nextValue; history := history st ++ [nextValue];
      closure := g |}).

(** [reset(value)]; [reset()] is [reset(undefined)]. *)
Definition reset (o : UseGeneratorOptions) (v : value) (st : state) : state :=
  match v with
  | val _ => {| current := v; history := [v]; closure := closure st |}
  | undefined =>
      match initial o with
      | val _ => {| current := initial o; history := [initial o];
                    closure := closure st |}
      | undefined =>
          let '(c, g) := getNext o (closure st) (current st) in
          {| current := c; history := [c]; closure := g |}
      end
  end.

Definition clear (st : state) : state :=
  {| current := current st; history := []; closure := closure st |}.

(** The calls the invariant is about. *)
Inductive call :=
  | Next
  | Reset (v : value).

Definition step (o : UseGeneratorOptions) (st : state) (c : call) : state :=
  match c with
  | Next => (next o st).2
  | Reset v => reset o v st
  end.

(** The states after each call of a sequence, in call order. *)
Fixpoint states (o : UseGeneratorOptions) (st : state) (cs : list call)
  : list state :=
  match cs with
  | [] => []
  | c :: cs' => step o st c :: states o (step o st c) cs'
  end.

(** [history] is not empty and ends with [current]. *)
Definition history_ends_with_current (st : state) : Prop :=
  last (history st) = Some (current st).

End UseGenerator.

Arguments value : clear implicits.
Arguments UseGeneratorOptions : clear implicits.
Arguments state : clear implicits.
Arguments call : clear implicits.

(** [useCounterGenerator(0, 1)]: [0] is not truthy, so the history starts
    out empty. *)
Definition counter_options : UseGeneratorOptions Z unit :=
  {| initial := val 0;
     getNext := λ g c, (match c with val n => val (n + 1)
                                   | undefined => undefined end, g) |}.

Definition number_truthy (n : Z) : bool := negb (n =? 0).

Definition counter : state Z unit :=
  useGenerator number_truthy counter_options tt.

End UseGenerator.

(** ** Sums of JavaScript numbers *)

(** The counters add and subtract numbers, which are IEEE 754 doubles.
    The integer-valued ones are modelled: an integer is a double when its
    magnitude is at most [2 ^ 53], and beyond that when it fits the 53
    bits of the significand.  The sum of two doubles is the exact sum
    rounded to the nearest double, a tie going to the even significand;
    sums stay below [2 ^ 1024], where the doubles end. *)
Module Double.

(** The range in which every integer is a double, [2 ^ 53] being
    [Number.MAX_SAFE_INTEGER + 1]. *)
Definition safe (z : Z) : Prop := - 2 ^ 53 ≤ z ≤ 2 ^ 53.

(** The double nearest to an integer.  Of an integer of more than 53 bits
    the lowest [e] bits are rounded away. *)
Definition round (z : Z) : Z :=
  let a := Z.abs z in
  if a <=? 2 ^ 53 then z
  else
    let e := Z.log2 a - 52 in
    let q := a / 2 ^ e in
    let r := a mod 2 ^ e in
    let half := 2 ^ (e - 1) in
    let q' := if r <? half then q
              else if half <? r then q + 1
              else if Z.even q then q else q + 1 in
    Z.sgn z * (q' * 2 ^ e).

(** [x + y] *)
Definition add (x y : Z) : Z := round (x + y).

(** [x - y] *)
Definition sub (x y : Z) : Z := round (x - y).

End Double.

(** ** useSort: the sort state and the comparator factories *)

Module UseSortState.
Import JsArray UseSort.

Section Operations.
Context {T K : Type}.

(** What the object returned by [useSort] offers to change the sort
    state: the assignments and [clearSort] of [action], and the two
    functions on the sort options. *)
Inductive operation :=
  | Assign (a : action K)
  | AddSortOption (o : SortOption T)
  | RemoveSortOption (k : string).

Definition apply_operation (s : refs T K) (op : operation) : refs T K :=
  match op with
  | Assign a => apply_action s a
  | AddSortOption o => addSortOption o s
  | RemoveSortOption k => removeSortOption k s
  end.

Definition run_operations (ops : list operation) (s : refs T K) : refs T K :=
  foldl apply_operation s ops.

End Operations.

Arguments operation : clear implicits.

(** A [Date] object: its time value in milliseconds, or [None] for an
    Invalid Date. *)
Definition JsDate := option Z.

(** [createDateCompare()]:
    [(a, b) => new Date(a).getTime() - new Date(b).getTime()], on [Date]
    arguments.  The difference is NaN when one of the dates is invalid;
    [sort] reads a NaN result as 0, and so does the comparator here. *)
Definition createDateCompare : comparator JsDate := λ a b,
  match a, b with
  | Some x, Some y => x - y
  | _, _ => 0
  end.

(** [a] is not later than [b]. *)
Definition not_later (a b : JsDate) : Prop :=
  match a, b with
  | Some x, Some y => x ≤ y
  | _, _ => True
  end.

(** Three dates of January 2023, the latest first. *)
Definition january : list JsDate :=
  [Some 1672704000000; Some 1672531200000; Some 1672617600000].

Definition january_by_date : instance JsDate * refs JsDate string :=
  useSort 0%nat (Some createDateCompare).

(** Two sort options, the second registered twice. *)
Definition by_name_option : SortOption User :=
  {| key := "name"; label := "Name"; opt_compareFn := None |}.
Definition by_age_option : SortOption User :=
  {| key := "age"; label := "Age"; opt_compareFn := Some by_age |}.

End UseSortState.

(** ** The specialised generators of useGenerator *)

Module Generators.
Import UseGenerator.

(** A JavaScript number, as far as the generators go: an integer, or NaN
    (what [undefined + step] is). *)
Inductive number :=
  | NaN
  | Num (z : Z).

(** [0] and NaN are the numbers a condition takes for false. *)
Definition number_truthy (n : number) : bool :=
  match n with
  | NaN => false
  | Num z => negb (z =? 0)
  end.

(** [current + step], the sum of two doubles. *)
Definition plus (c : value number) (step : Z) : value number :=
  match c with
  | val (Num n) => val (Num (Double.add n step))
  | _ => val NaN
  end.

(** [useCounterGenerator(start, step)]: the options it hands to
    [useGenerator]. *)
Definition useCounterGenerator_options (start step : Z)
  : UseGeneratorOptions number unit :=
  {| initial := val (Num start);
     getNext := λ g current, (plus current step, g) |}.

Definition useCounterGenerator (start step : Z) : state number unit :=
  useGenerator number_truthy (useCounterGenerator_options start step) tt.

(** The values [start + step], ..., [start + n * step]. *)
Definition counter_values (start step : Z) (n : nat) : list (value number) :=
  (λ i : nat, val (Num (start + Z.of_nat i * step))) <$> seq 1 n.

Section ArrayGenerator.
Context {T : Type}.
Variable truthy : T → bool.

(** [useArrayGenerator(items, loop)]: [getNext] keeps the [index] variable
    of the enclosing call.  The items are values other than [undefined]
    and [null], and the array is the caller's: it is taken to stay as it
    is. *)
Definition useArrayGenerator_options (items : list T) (loop : bool)
  : UseGeneratorOptions T nat :=
  {| initial := match items with [] => undefined | x :: _ => val x end;
     getNext := λ index current,
       if bool_decide (length items = 0%nat) then (current, index)
       else
         let index' := ((index + 1) mod length items)%nat in
         if negb loop && bool_decide (index' = 0%nat) then (current, index')
         else (match items !! index' with
               | Some x => val x
               | None => undefined
               end, index') |}.

Definition useArrayGenerator (items : list T) (loop : bool) : state T nat :=
  useGenerator truthy (useArrayGenerator_options items loop) 0%nat.

End ArrayGenerator.

(** Where a generator that does not loop stands after [n] calls of
    [next()]: it walks up to the last item, stays there for one call, and
    goes on from the second item. *)
Definition no_loop_position (len n : nat) : nat :=
  if bool_decide (n = 0)%nat then 0%nat
  else if bool_decide (n mod len = 0)%nat then (len - 1)%nat
  else (n mod len)%nat.

Definition string_truthy (s : string) : bool :=
  negb (bool_decide (s = "")).

Definition colors : list string :=
  ["#FF6B6B"; "#4ECDC4"; "#45B7D1"; "#96CEB4"; "#FFEAA7";
   "#DDA0DD"; "#98D8C8"; "#F7DC6F"; "#BB8FCE"; "#85C1E2"].

Definition useColorGenerator : state string nat :=
  useArrayGenerator string_truthy colors true.

Definition defaultWords : list string :=
  ["apple"; "banana"; "cherry"; "date"; "elderberry";
   "fig"; "grape"; "honeydew"; "kiwi"; "lemon"].

(** [words.length > 0 ? words : defaultWords] *)
Definition wordList (words : list string) : list string :=
  if bool_decide (0 < length words)%nat then words else defaultWords.

Definition useWordGenerator (words : list string) : state string nat :=
  useArrayGenerator string_truthy (wordList words) true.

Section Runs.
Context {T G : Type}.

(** The state after a sequence of calls. *)
Definition after (o : UseGeneratorOptions T G) (st : state T G)
    (cs : list (call T)) : state T G :=
  foldl (step o) st cs.

(** How many of the calls are [next()]. *)
Fixpoint nexts (cs : list (call T)) : nat :=
  match cs with
  | [] => 0
  | Next :: cs' => S (nexts cs')
  | Reset _ :: cs' => nexts cs'
  end.

End Runs.

End Generators.

(** ** useLocalStorage: writing, removing, unmounting *)

Module UseLocalStorageState.
Import UseLocalStorage.

(** The entries after [setItem(k, v)]: the value of [k] is replaced, or
    the entry is added. *)
Fixpoint set_assoc (k v : string) (kvs : list (string * string))
  : list (string * string) :=
  match kvs with
  | [] => [(k, v)]
  | (k', v') :: kvs' =>
      if decide (k' = k) then (k, v) :: kvs' else (k', v') :: set_assoc k v kvs'
  end.

Definition del_assoc (k : string) (kvs : list (string * string))
  : list (string * string) :=
  filter (λ kv, kv.1 ≠ k) kvs.

(** [localStorage.setItem(key, value)]; a storage that refuses access
    throws (a storage that is full is not modelled). *)
Definition setItem (key value : string) (ls : Storage) : completion Storage :=
  match refused ls with
  | Some e => Throw e
  | None => Normal {| entries := set_assoc key value (entries ls);
                      refused := None |}
  end.

(** [localStorage.removeItem(key)] *)
Definition removeItem (key : string) (ls : Storage) : completion Storage :=
  match refused ls with
  | Some e => Throw e
  | None => Normal {| entries := del_assoc key (entries ls);
                      refused := None |}
  end.

Section Writes.
Context {T : Type}.

(** What the closures act on: the [storedValue] ref, the storage, and the
    log of the errors [onError] was called with. *)
Record world := {
  storedValue : T;
  storage : Storage;
  reported : list Error
}.

(** The [catch] blocks of [write] and [remove]: [onError(error)]. *)
Definition caught (u : instance T) (e : Error) (w : world)
  : completion unit * world :=
  (onError u e,
   {| storedValue := storedValue w; storage := storage w;
      reported := reported w ++ [e] |}).

(** The [write] closure:
    [try { localStorage.setItem(key, serializer.write(value)) }
     catch (error) { onError(error) }]. *)
Definition write (u : instance T) (value : T) (w : world)
  : completion unit * world :=
  match ser_write (serializer u) value with
  | Throw e => caught u e w
  | Normal text =>
      match setItem (key u) text (storage w) with
      | Throw e => caught u e w
      | Normal ls =>
          (Normal tt,
           {| storedValue := storedValue w; storage := ls;
              reported := reported w |})
      end
  end.

(** The [remove] closure:
    [try { localStorage.removeItem(key); storedValue.value = defaultValue }
     catch (error) { onError(error) }]. *)
Definition remove (u : instance T) (w : world) : completion unit * world :=
  match removeItem (key u) (storage w) with
  | Throw e => caught u e w
  | Normal ls =>
      (Normal tt,
       {| storedValue := defaultValue u; storage := ls;
          reported := reported w |})
  end.

Definition clear (u : instance T) (w : world) : completion unit * world :=
  remove u w.

(** The unmounted hook: [write(storedValue.value)]. *)
Definition onUnmounted (u : instance T) (w : world)
  : completion unit * world :=
  write u (storedValue w) w.

(** [read()] in a world. *)
Definition read_in (u : instance T) (w : world) : completion T * list Error :=
  read u (storage w) (reported w).

End Writes.

Arguments world : clear implicits.

(** A world of [useLocalStorage('count', 0)]: the count 42 is stored, and
    so is another key. *)
Definition count_world : world Z :=
  {| storedValue := 42;
     storage := {| entries := [("theme", "dark"); ("count", "42")];
                   refused := None |};
     reported := [] |}.

End UseLocalStorageState.

(** ** Timers of useIdle and useScroll *)

Module Timers.
Import Dom.

(** The identifiers of the pending timers were all handed out already. *)
Definition timers_wf (b : browser) : Prop :=
  Forall (λ i, i < next_timer b)%nat (timers b).

(** The timers that were made after the page was as in [b0] and are
    still pending in [b]: none, or the one timer [id] of the instance. *)
Definition owns (b0 b : browser) (id : option nat) (running : bool) : Prop :=
  (next_timer b0 ≤ next_timer b)%nat
  ∧ timers b = timers b0 ++ (if running then option_list id else [])
  ∧ (running = true → is_Some id)
  ∧ (∀ i, id = Some i → next_timer b0 ≤ i < next_timer b)%nat.

(** The timer of a [useIdle] instance is pending exactly when
    [timeoutId] is set, and then the instance is not idle. *)
Definition idle_owns (b0 : browser) (sb : UseIdle.state * browser) : Prop :=
  owns b0 sb.2 (UseIdle.timeoutId sb.1)
    (bool_decide (is_Some (UseIdle.timeoutId sb.1)))
  ∧ (UseIdle.idle sb.1 = true → UseIdle.timeoutId sb.1 = None).

End Timers.

(** ** useCounter (src/math/useCounter.ts) *)

Module UseCounter.

(** Counts, steps and deltas are integer-valued doubles, and their sums
    and differences are those of doubles, [Double.add] and [Double.sub];
    a bound is such a number when the option is given, and the infinity
    [useCounter] puts in its place when it is not. *)
Record UseCounterOptions := {
  opt_min : option Z;
  opt_max : option Z;
  opt_step : option Z
}.

(** The refs of one [useCounter] call, and its [initialValue]. *)
Record state := {
  initialValue : Z;
  count : Z;
  stepRef : Z;
  minRef : option Z;
  maxRef : option Z
}.

Definition useCounter (initialValue : Z) (o : UseCounterOptions) : state :=
  {| initialValue := initialValue; count := initialValue;
     stepRef := default 1 (opt_step o);
     minRef := opt_min o; maxRef := opt_max o |}.

(** [v <= maxRef.value], where no bound is [Number.POSITIVE_INFINITY]. *)
Definition le_max (v : Z) (max : option Z) : bool :=
  match max with None => true | Some m => v <=? m end.

(** [v >= minRef.value], where no bound is [Number.NEGATIVE_INFINITY]. *)
Definition ge_min (v : Z) (min : option Z) : bool :=
  match min with None => true | Some m => m <=? v end.

Definition with_count (st : state) (c : Z) : state :=
  {| initialValue := initialValue st; count := c; stepRef := stepRef st;
     minRef := minRef st; maxRef := maxRef st |}.

(** [count.value + stepRef.value <= maxRef.value] *)
Definition canIncrement (st : state) : bool :=
  le_max (Double.add (count st) (stepRef st)) (maxRef st).
(** [count.value - stepRef.value >= minRef.value] *)
Definition canDecrement (st : state) : bool :=
  ge_min (Double.sub (count st) (stepRef st)) (minRef st).
Definition isAtMin (st : state) : bool :=
  match minRef st with None => false | Some m => count st <=? m end.
Definition isAtMax (st : state) : bool :=
  match maxRef st with None => false | Some m => m <=? count st end.

(** [inc(delta)]; [None] is a call without argument, which takes the
    step. *)
Definition inc (delta : option Z) (st : state) : state :=
  let newValue := Double.add (count st) (default (stepRef st) delta) in
  if le_max newValue (maxRef st) then with_count st newValue else st.

Definition dec (delta : option Z) (st : state) : state :=
  let newValue := Double.sub (count st) (default (stepRef st) delta) in
  if ge_min newValue (minRef st) then with_count st newValue else st.

(** [Math.min(Math.max(value, minRef.value), maxRef.value)] *)
Definition clamp (value : Z) (min max : option Z) : Z :=
  let lower := match min with None => value | Some m => Z.max value m end in
  match max with None => lower | Some m => Z.min lower m end.

Definition set (value : Z) (st : state) : state :=
  with_count st (clamp value (minRef st) (maxRef st)).

Definition reset (st : state) : state := with_count st (initialValue st).

(** The count is within the bounds. *)
Definition in_range (st : state) : Prop :=
  ge_min (count st) (minRef st) = true ∧ le_max (count st) (maxRef st) = true.

(** The bounds leave room: the minimum is not above the maximum. *)
Definition bounds_ordered (st : state) : Prop :=
  match minRef st, maxRef st with
  | Some lo, Some hi => lo ≤ hi
  | _, _ => True
  end.

(** The bounds that are given are integers every one of which is a
    double. *)
Definition bounds_safe (st : state) : Prop :=
  match minRef st with Some lo => Double.safe lo | None => True end
  ∧ match maxRef st with Some hi => Double.safe hi | None => True end.

(** The calls of a counter. *)
Inductive call :=
  | CallInc (delta : option Z)
  | CallDec (delta : option Z)
  | CallSet (value : Z)
  | CallReset.

Definition step (st : state) (c : call) : state :=
  match c with
  | CallInc d => inc d st
  | CallDec d => dec d st
  | CallSet v => set v st
  | CallReset => reset st
  end.

(** The delta of a call, and the step when none is given, is not
    negative. *)
Definition forward (st : state) (c : call) : Prop :=
  match c with
  | CallInc d | CallDec d => 0 ≤ default (stepRef st) d
  | _ => True
  end.

(** A counter from 0 to 10, at 5, in steps of 2. *)
Definition zero_to_ten : state :=
  set 5 (useCounter 0 {| opt_min := Some 0; opt_max := Some 10;
                         opt_step := Some 2 |}).

(** A counter one below [2 ^ 53], the least integer whose successor is no
    double, in steps of 2 and with [2 ^ 53] as maximum. *)
Definition near_limit : state :=
  useCounter (2 ^ 53 - 1) {| opt_min := Some 0; opt_max := Some (2 ^ 53);
                             opt_step := Some 2 |}.

(** A counter at its maximum [2 ^ 53], in steps of 1. *)
Definition at_limit : state :=
  useCounter (2 ^ 53) {| opt_min := None; opt_max := Some (2 ^ 53);
                         opt_step := None |}.

End UseCounter.

(** ** useIntersectionObserver (src/events/useIntersectionObserver.ts) *)

Module UseIntersectionObserver.

(** A DOM element, by identity. *)
Definition Element := nat.

(** A ratio or threshold, in thousandths. *)
Definition ratio := Z.

(** The options an [IntersectionObserver] is constructed with; they are
    taken to be ones the constructor accepts (it throws on a threshold
    outside 0 to 1 or a margin it cannot parse). *)
Record ObserverInit := {
  init_threshold : list ratio;
  init_root : option Element;
  init_rootMargin : string
}.

(** An [IntersectionObserver] of the page: how it was constructed and the
    elements it observes now. *)
Record Observer := {
  obs_init : ObserverInit;
  observed : list Element
}.

(** The observers of the page; an observer is known by its position. *)
Definition page := list Observer.

(** [new IntersectionObserver(callback, init)] *)
Definition new_observer (i : ObserverInit) (pg : page) : nat * page :=
  (length pg, pg ++ [{| obs_init := i; observed := [] |}]).

(** [observer.observe(element)]: an element is observed once. *)
Definition observe (id : nat) (el : Element) (pg : page) : page :=
  match pg !! id with
  | Some ob =>
      <[id := {| obs_init := obs_init ob;
                 observed := if decide (el ∈ observed ob) then observed ob
                             else observed ob ++ [el] |}]> pg
  | None => pg
  end.

(** [observer.unobserve(element)] *)
Definition unobserve (id : nat) (el : Element) (pg : page) : page :=
  match pg !! id with
  | Some ob =>
      <[id := {| obs_init := obs_init ob;
                 observed := filter (λ e, e ≠ el) (observed ob) |}]> pg
  | None => pg
  end.

(** [observer.disconnect()] *)
Definition disconnect (id : nat) (pg : page) : page :=
  match pg !! id with
  | Some ob => <[id := {| obs_init := obs_init ob; observed := [] |}]> pg
  | None => pg
  end.

(** The options object of the caller; a member that is [None] is not
    given. *)
Record IntersectionObserverOptions := {
  threshold : option (list ratio);
  root : option Element;
  rootMargin : option string
}.

(** [Object.assign(options, newOptions)]: the members [newOptions] gives
    replace those of [options]. *)
Definition assign (options newOptions : IntersectionObserverOptions)
  : IntersectionObserverOptions :=
  {| threshold := match threshold newOptions with
                  | Some t => Some t | None => threshold options end;
     root := match root newOptions with
             | Some r => Some r | None => root options end;
     rootMargin := match rootMargin newOptions with
                   | Some m => Some m | None => rootMargin options end |}.

Record IntersectionObserverEntry := {
  entry_target : Element;
  entry_isIntersecting : bool;
  entry_intersectionRatio : ratio
}.

(** One [useIntersectionObserver] call: the [options] object, the three
    constants destructured out of it when the call was made, the refs, and
    the [observer] variable; [element] is the element the callback of the
    current observer was created for. *)
Record state := {
  options : IntersectionObserverOptions;
  const_init : ObserverInit;
  isSupported : bool;
  isIntersecting : bool;
  intersectionRatio : ratio;
  targetElement : option Element;
  entries : list IntersectionObserverEntry;
  observer : option nat;
  element : option Element
}.

(** [supported] is [!!window.IntersectionObserver]. *)
Definition useIntersectionObserver (o : IntersectionObserverOptions)
    (supported : bool) : state :=
  {| options := o;
     const_init := {| init_threshold := default [0] (threshold o);
                      init_root := root o;
                      init_rootMargin := default "0px" (rootMargin o) |};
     isSupported := supported; isIntersecting := false;
     intersectionRatio := 0; targetElement := None; entries := [];
     observer := None; element := None |}.

(** [setupObserver()]; [target] is what [getTargetElement()] returns at
    the call. *)
Definition setupObserver (target : option Element) (st : state) (pg : page)
  : state * page :=
  if negb (isSupported st) then (st, pg)
  else match target with
       | None => (st, pg)
       | Some el =>
           let '(id, pg') := new_observer (const_init st) pg in
           ({| options := options st; const_init := const_init st;
               isSupported := isSupported st;
               isIntersecting := isIntersecting st;
               intersectionRatio := intersectionRatio st;
               targetElement := Some el; entries := entries st;
               observer := Some id; element := Some el |},
            observe id el pg')
       end.

Definition stop (st : state) (pg : page) : state * page :=
  ({| options := options st; const_init := const_init st;
      isSupported := isSupported st; isIntersecting := false;
      intersectionRatio := 0; targetElement := targetElement st;
      entries := []; observer := None; element := element st |},
   match observer st with Some id => disconnect id pg | None => pg end).

Definition start (target : option Element) (st : state) (pg : page)
  : state * page :=
  let '(st', pg') :=
    match observer st with Some _ => stop st pg | None => (st, pg) end in
  setupObserver target st' pg'.

(** [pause()]; on an observer without target element, [unobserve] of
    [null] throws and nothing changes. *)
Definition pause (st : state) (pg : page) : state * page :=
  match observer st, targetElement st with
  | Some id, Some el => (st, unobserve id el pg)
  | _, _ => (st, pg)
  end.

Definition resume (st : state) (pg : page) : state * page :=
  match observer st, targetElement st with
  | Some id, Some el => (st, observe id el pg)
  | _, _ => (st, pg)
  end.

Definition updateOptions (newOptions : IntersectionObserverOptions)
    (target : option Element) (st : state) (pg : page) : state * page :=
  start target
    {| options := assign (options st) newOptions;
       const_init := const_init st; isSupported := isSupported st;
       isIntersecting := isIntersecting st;
       intersectionRatio := intersectionRatio st;
       targetElement := targetElement st; entries := entries st;
       observer := observer st; element := element st |} pg.

(** The first entry of the batch for the element of the callback. *)
Fixpoint entry_for (el : option Element)
    (es : list IntersectionObserverEntry) : option IntersectionObserverEntry :=
  match es with
  | [] => None
  | e :: es' => if decide (Some (entry_target e) = el) then Some e
                else entry_for el es'
  end.

(** The callback of the current observer, called with a batch of
    entries. *)
Definition callback (observerEntries : list IntersectionObserverEntry)
    (st : state) : state :=
  let found := entry_for (element st) observerEntries in
  {| options := options st; const_init := const_init st;
     isSupported := isSupported st;
     isIntersecting := match found with
                       | Some e => entry_isIntersecting e
                       | None => isIntersecting st end;
     intersectionRatio := match found with
                          | Some e => entry_intersectionRatio e
                          | None => intersectionRatio st end;
     targetElement := targetElement st; entries := observerEntries;
     observer := observer st; element := element st |}.

Definition onMounted (target : option Element) (st : state) (pg : page)
  : state * page :=
  setupObserver target st pg.

Definition onUnmounted (st : state) (pg : page) : state * page := stop st pg.

(** What happens to a mounted instance: a call of one of its functions,
    or the browser reports a batch of entries to the current observer
    (it reports to an observer only while that observes something). *)
Inductive event :=
  | Start (target : option Element)
  | Stop
  | Pause
  | Resume
  | UpdateOptions (newOptions : IntersectionObserverOptions)
      (target : option Element)
  | Report (observerEntries : list IntersectionObserverEntry).

(** The observer [id] observes something. *)
Definition live (id : option nat) (pg : page) : bool :=
  match id with
  | Some i => match pg !! i with
              | Some ob => negb (bool_decide (observed ob = []))
              | None => false
              end
  | None => false
  end.

Definition deliver (sp : state * page) (e : event) : state * page :=
  match e with
  | Start t => start t sp.1 sp.2
  | Stop => stop sp.1 sp.2
  | Pause => pause sp.1 sp.2
  | Resume => resume sp.1 sp.2
  | UpdateOptions o t => updateOptions o t sp.1 sp.2
  | Report es => if live (observer sp.1) sp.2 then (callback es sp.1, sp.2)
                 else sp
  end.

Definition lifetime (target : option Element) (evs : list event)
    (st : state) (pg : page) : state * page :=
  let sp := foldl deliver (onMounted target st pg) evs in
  onUnmounted sp.1 sp.2.

(** An observer constructed with [init] that observes nothing. *)
Definition idle_observer (init : ObserverInit) (ob : Observer) : Prop :=
  obs_init ob = init ∧ observed ob = [].

(** The observers made after the page was as in [pg0], in a state whose
    constants are [init]: each was constructed with [init], and all of
    them observe nothing, but for the current one, which is the last made
    and observes its target element or nothing. *)
Definition observers_kept (pg0 : page) (init : ObserverInit)
    (sp : state * page) : Prop :=
  const_init sp.1 = init
  ∧ ∃ olds, Forall (idle_observer init) olds
    ∧ match observer sp.1 with
      | None => sp.2 = pg0 ++ olds
      | Some id =>
          ∃ ob el, sp.2 = (pg0 ++ olds) ++ [ob]
            ∧ id = length (pg0 ++ olds)
            ∧ obs_init ob = init
            ∧ targetElement sp.1 = Some el
            ∧ (observed ob = [] ∨ observed ob = [el])
      end.

(** A page with an observer of its own, and an element to watch. *)
Definition some_page : page :=
  [{| obs_init := {| init_threshold := [500]; init_root := None;
                     init_rootMargin := "10px" |};
      observed := [3%nat; 4%nat] |}].

Definition lazy_image : state :=
  useIntersectionObserver
    {| threshold := Some [100]; root := None; rootMargin := None |} true.

End UseIntersectionObserver.

(** ** useIdGenerator *)

From Stdlib Require DecimalString DecimalN.

Module IdGenerator.
Import UseGenerator.

(** [\d]: one of the characters 0 to 9. *)
Definition is_digit (c : Ascii.ascii) : bool :=
  (48 <=? Ascii.nat_of_ascii c)%nat && (Ascii.nat_of_ascii c <=? 57)%nat.

Fixpoint all_digits (s : string) : bool :=
  match s with
  | EmptyString => true
  | String c s' => is_digit c && all_digits s'
  end.

(** [current.match(/\d+$/)]: the longest run of digits the string ends
    with; the empty string stands for [null], no match. *)
Fixpoint trailing_digits (s : string) : string :=
  match s with
  | EmptyString => EmptyString
  | String c s' =>
      if is_digit c && all_digits s' then String c s' else trailing_digits s'
  end.

(** The text of a number in a template literal; the numbers are the
    non-negative integers a JavaScript number holds exactly. *)
Definition number_to_string (n : N) : string :=
  DecimalString.NilEmpty.string_of_uint (N.to_uint n).

(** [parseInt(digits)] on a run of digits; [None] is NaN. *)
Definition parseInt (digits : string) : option N :=
  match digits with
  | EmptyString => None
  | _ => N.of_uint <$> DecimalString.NilEmpty.uint_of_string digits
  end.

(** [`${prefix}${number}`], where [number] may be NaN. *)
Definition make_id (prefix : string) (number : option N) : string :=
  String.append prefix
    (match number with Some n => number_to_string n | None => "NaN" end).

(** [useIdGenerator(prefix, start)]: the options it hands to
    [useGenerator].  [current] is a string at every call of [getNext]
    ([match] on [undefined] would throw). *)
Definition useIdGenerator_options (prefix : string) (start : N)
  : UseGeneratorOptions string unit :=
  {| initial := val (make_id prefix (Some start));
     getNext := λ g current,
       match current with
       | undefined => (undefined, g)
       | val s =>
           let number :=
             match trailing_digits s with
             | EmptyString => Some start
             | digits => N.succ <$> parseInt digits
             end in
           (val (make_id prefix number), g)
       end |}.

Definition string_truthy (s : string) : bool :=
  negb (bool_decide (s = "")).

Definition useIdGenerator (prefix : string) (start : N) : state string unit :=
  useGenerator string_truthy (useIdGenerator_options prefix start) tt.

End IdGenerator.

(** ** useIntersectionObserverMultiple *)

Module UseIntersectionObserverMultiple.
Import UseIntersectionObserver.

Record IntersectionResult := {
  res_isIntersecting : bool;
  res_intersectionRatio : ratio;
  res_target : Element;
  res_entry : IntersectionObserverEntry
}.

(** The [results] map, read through [get]: an element has a result or
    none. *)
Definition Results := Element → option IntersectionResult.

Record state := {
  const_init : ObserverInit;
  isSupported : bool;
  results : Results;
  entries : list IntersectionObserverEntry;
  observer : option nat
}.

Definition useIntersectionObserverMultiple (o : IntersectionObserverOptions)
    (supported : bool) : state :=
  {| const_init := {| init_threshold := default [0] (threshold o);
                      init_root := root o;
                      init_rootMargin := default "0px" (rootMargin o) |};
     isSupported := supported; results := λ _, None; entries := [];
     observer := None |}.

(** [getTargetElements()]: what the targets resolve to at the call, the
    [null]s filtered out. *)
Definition getTargetElements (targets : list (option Element)) : list Element :=
  omap id targets.

Definition setupObserver (targets : list (option Element)) (st : state)
    (pg : page) : state * page :=
  if negb (isSupported st) then (st, pg)
  else match getTargetElements targets with
       | [] => (st, pg)
       | elements =>
           let '(id, pg') := new_observer (const_init st) pg in
           ({| const_init := const_init st; isSupported := isSupported st;
               results := results st; entries := entries st;
               observer := Some id |},
            foldl (λ pg0 el, observe id el pg0) pg' elements)
       end.

(** [stop()]: [results.value.clear()] empties the map. *)
Definition stop (st : state) (pg : page) : state * page :=
  ({| const_init := const_init st; isSupported := isSupported st;
      results := λ _, None; entries := []; observer := None |},
   match observer st with Some id => disconnect id pg | None => pg end).

Definition start (targets : list (option Element)) (st : state) (pg : page)
  : state * page :=
  let '(st', pg') :=
    match observer st with Some _ => stop st pg | None => (st, pg) end in
  setupObserver targets st' pg'.

(** [results.value.set(entry.target, result)] *)
Definition record_entry (r : Results) (e : IntersectionObserverEntry) : Results :=
  λ target,
    if decide (entry_target e = target)
    then Some {| res_isIntersecting := entry_isIntersecting e;
                 res_intersectionRatio := entry_intersectionRatio e;
                 res_target := entry_target e; res_entry := e |}
    else r target.

(** The callback of the observer, called with a batch of entries. *)
Definition callback (observerEntries : list IntersectionObserverEntry)
    (st : state) : state :=
  {| const_init := const_init st; isSupported := isSupported st;
     results := foldl record_entry (results st) observerEntries;
     entries := observerEntries; observer := observer st |}.

Definition getResult (st : state) (target : Element)
  : option IntersectionResult :=
  results st target.

(** [results.value.get(target)?.isIntersecting ?? false] *)
Definition isIntersecting (st : state) (target : Element) : bool :=
  default false (res_isIntersecting <$> results st target).

(** [results.value.get(target)?.intersectionRatio ?? 0] *)
Definition getIntersectionRatio (st : state) (target : Element) : ratio :=
  default 0 (res_intersectionRatio <$> results st target).

(** The last entry of a batch for a target. *)
Definition last_entry_for (target : Element)
    (es : list IntersectionObserverEntry) : option IntersectionObserverEntry :=
  last (filter (λ e, entry_target e = target) es).

End UseIntersectionObserverMultiple.

(** * Properties *)

(** ** The model of [Array.prototype.sort] *)

Section SortFacts.
Import JsArray.
Context {T : Type}.
Implicit Types (cmp : comparator T) (l : list T) (x : T).

Lemma sort_insert_perm cmp x l : sort_insert cmp x l ≡ₚ x :: l.
Proof.
  induction l as [|y l IH]; simpl; [done|].
  destruct (Z.leb _ _); [done|].
  rewrite IH. apply Permutation_swap.
Qed.

Lemma sort_by_perm cmp l : sort_by cmp l ≡ₚ l.
Proof.
  induction l as [|x l IH]; simpl; [done|].
  by rewrite sort_insert_perm, IH.
Qed.

Lemma sort_by_length cmp l : length (sort_by cmp l) = length l.
Proof. apply Permutation_length, sort_by_perm. Qed.

(** On a consistent comparator, [a > b] makes [b] go before [a]. *)
Lemma consistent_flip cmp S a b :
  consistent cmp S → a ∈ S → b ∈ S → cmp a b > 0 → cmp b a ≤ 0.
Proof.
  intros HS Ha Hb Hab.
  destruct (Z.lt_total (cmp b a) 0) as [Hlt|[Heq|Hgt]]; [lia|lia|].
  pose proof (cmp_gt_trans _ _ HS a b a Ha Hb Ha Hab ltac:(lia)).
  pose proof (cmp_refl _ _ HS a Ha). lia.
Qed.

Lemma consistent_le_trans cmp S a b c :
  consistent cmp S → a ∈ S → b ∈ S → c ∈ S →
  cmp_le cmp a b → cmp_le cmp b c → cmp_le cmp a c.
Proof.
  unfold cmp_le. intros HS Ha Hb Hc Hab Hbc.
  destruct (Z.lt_total (cmp a c) 0) as [?|[?|Hgt]]; [lia|lia|exfalso].
  (* c < a, so [c ≤ b] or [b ≤ a] is strict the wrong way round *)
  assert (cmp c a < 0) as Hca.
  { destruct (Z.lt_total (cmp c a) 0) as [?|[Heq|Hgt']]; [done| |].
    - pose proof (cmp_sym _ _ HS c a Hc Ha Heq). lia.
    - pose proof (cmp_gt_trans _ _ HS a c a Ha Hc Ha ltac:(lia) ltac:(lia)).
      pose proof (cmp_refl _ _ HS a Ha). lia. }
  destruct (Z.eq_dec (cmp a b) 0) as [Hab0|Hab0].
  - destruct (Z.eq_dec (cmp b c) 0) as [Hbc0|Hbc0].
    + pose proof (cmp_eq_trans _ _ HS a b c Ha Hb Hc Hab0 Hbc0). lia.
    + pose proof (cmp_lt_trans _ _ HS b c a Hb Hc Ha ltac:(lia) Hca) as Hba.
      pose proof (cmp_sym _ _ HS a b Ha Hb Hab0). lia.
  - pose proof (cmp_lt_trans _ _ HS c a b Hc Ha Hb Hca ltac:(lia)) as Hcb.
    destruct (Z.eq_dec (cmp b c) 0) as [Hbc0|Hbc0].
    + pose proof (cmp_sym _ _ HS b c Hb Hc Hbc0). lia.
    + pose proof (cmp_lt_trans _ _ HS b c b Hb Hc Hb ltac:(lia) Hcb).
      pose proof (cmp_refl _ _ HS b Hb). lia.
Qed.

Lemma consistent_subseteq cmp S S' :
  S' ⊆ S → consistent cmp S → consistent cmp S'.
Proof.
  intros Hsub [H1 H2 H3 H4 H5]. split; intros; eauto 10.
Qed.

(** Inserting into a sorted array keeps it sorted. *)
Lemma sort_insert_sorted cmp S x l :
  consistent cmp S → x ∈ S → l ⊆ S →
  Sorted (cmp_le cmp) l → Sorted (cmp_le cmp) (sort_insert cmp x l).
Proof.
  intros HS Hx Hl Hs.
  induction Hs as [|y l Hs IH Hhd]; simpl.
  { repeat constructor. }
  destruct (Z.leb_spec (cmp x y) 0) as [Hle|Hgt].
  { constructor; [by constructor|]. by constructor. }
  assert (y ∈ S) as Hy by set_solver.
  constructor; [apply IH; set_solver|].
  destruct Hhd as [|z l' Hyz]; simpl.
  - constructor. eapply consistent_flip; eauto. lia.
  - destruct (Z.leb _ _); constructor; [|done].
    eapply consistent_flip; eauto. lia.
Qed.

Lemma sort_by_sorted cmp l :
  consistent cmp l → Sorted (cmp_le cmp) (sort_by cmp l).
Proof.
  intros HS. assert (l ⊆ l) as Hsub by done. revert Hsub.
  generalize l at 1 3 as l'.
  induction l' as [|x l' IH]; intros Hsub; simpl; [constructor|].
  eapply sort_insert_sorted; [done|set_solver| |apply IH; set_solver].
  intros y Hy. apply Hsub. right.
  by rewrite <-(sort_by_perm cmp l').
Qed.

(** Sorting an array that is in order changes nothing. *)
Lemma sort_by_of_sorted cmp l :
  Sorted (cmp_le cmp) l → sort_by cmp l = l.
Proof.
  induction 1 as [|x l Hs IH Hhd]; simpl; [done|].
  rewrite IH. destruct Hhd as [|y l' Hxy]; simpl; [done|].
  unfold cmp_le in Hxy. by destruct (Z.leb_spec (cmp x y) 0); [|lia].
Qed.

Lemma sort_by_idemp cmp l :
  consistent cmp l → sort_by cmp (sort_by cmp l) = sort_by cmp l.
Proof. intros. by apply sort_by_of_sorted, sort_by_sorted. Qed.

(** The model is stable: the elements that compare equal to [a] keep the
    order they had. *)
Lemma sort_insert_stable cmp S a x l :
  consistent cmp S → a ∈ S → x ∈ S → l ⊆ S →
  filter (λ y, cmp a y = 0) (sort_insert cmp x l)
  = filter (λ y, cmp a y = 0) (x :: l).
Proof.
  intros HS Ha Hx. induction l as [|y l IH]; intros Hl; simpl; [done|].
  destruct (Z.leb_spec (cmp x y) 0) as [Hle|Hgt]; [done|].
  assert (y ∈ S) as Hy by set_solver.
  rewrite (filter_cons _ y), IH by set_solver.
  rewrite !(filter_cons _ x), !(filter_cons _ y).
  destruct (decide (cmp a x = 0)) as [Hax|Hax],
    (decide (cmp a y = 0)) as [Hay|Hay]; try done.
  pose proof (cmp_sym _ _ HS a x Ha Hx Hax) as Hxa.
  pose proof (cmp_eq_trans _ _ HS x a y Hx Ha Hy Hxa Hay). lia.
Qed.

Lemma sort_by_stable cmp a l :
  consistent cmp l → a ∈ l →
  filter (λ y, cmp a y = 0) (sort_by cmp l) = filter (λ y, cmp a y = 0) l.
Proof.
  intros HS Ha. assert (l ⊆ l) as Hsub by done. revert Hsub.
  generalize l at 1 3 4 as l'.
  induction l' as [|x l' IH]; intros Hsub; simpl; [done|].
  rewrite (sort_insert_stable cmp l a x); [|done|done|set_solver|].
  - by rewrite !(filter_cons _ x), IH by set_solver.
  - intros y Hy. apply Hsub. right. by rewrite <-(sort_by_perm cmp l').
Qed.

End SortFacts.

(** ** useSort *)

Section UseSortFacts.
Import JsArray UseSort.
Context {T K : Type}.
Implicit Types (u : instance T) (s : refs T K) (h : store T) (xs : list T).

Lemma alloc_lookup_new h xs : (alloc h xs).1 !! (alloc h xs).2 = Some xs.
Proof. by apply list_lookup_middle. Qed.

Lemma alloc_lookup_old h xs (r : ref) :
  (r < length h)%nat → (alloc h xs).1 !! r = h !! r.
Proof. intros. by apply lookup_app_l. Qed.

(** A run of the getter on a live [items] array: it returns, the result is
    a new array at the first free address, every array that was live
    before is as it was, and the new array holds the items, passed through
    [sort] when there is a comparator. *)
Lemma sortedItems_run u s h xs :
  h !! items u = Some xs →
  ∃ h', sortedItems u s h = Some (h', length h)
    ∧ (∀ r : ref, (r < length h)%nat → h' !! r = h !! r)
    ∧ h' !! length h =
        Some (match compareFn u with None => xs | Some f => sort_by f xs end).
Proof.
  intros Hxs. unfold sortedItems, spread, array_sort, store, ref in *.
  destruct (compareFn u) as [f|]; rewrite Hxs; cbn [mbind option_bind alloc].
  - rewrite (list_lookup_middle h [] xs (length h) eq_refl).
    cbn [mbind option_bind]. eexists; split; [done|]. split.
    + intros r Hr. rewrite list_lookup_insert_ne by lia. by apply lookup_app_l.
    + apply list_lookup_insert_eq. rewrite length_app; simpl; lia.
  - eexists; split; [done|]. split.
    + intros r Hr. by apply lookup_app_l.
    + by apply list_lookup_middle.
Qed.

Lemma sortedItems_contents u s h xs :
  h !! items u = Some xs →
  contents (sortedItems u s h) =
    Some (match compareFn u with None => xs | Some f => sort_by f xs end).
Proof.
  intros Hxs. destruct (sortedItems_run u s h xs Hxs) as (h' & -> & _ & Hnew).
  done.
Qed.

Lemma sortedItems_refs_irrelevant u s s' h :
  sortedItems u s h = sortedItems u s' h.
Proof. done. Qed.

End UseSortFacts.

Section UseSortClaims.
Import JsArray UseSort.
Context {T K : Type}.
Implicit Types (u : instance T) (s : refs T K) (h : store T) (xs : list T).

(** C2: the value of [sortedItems] is a function of the items and of
    [compareFn] alone: after any two sequences of assignments to [sortBy]
    and [sortOrder] and calls of [clearSort], the two reads return arrays
    with the same elements. *)
Theorem sortedItems_independent_of_sort_state u s h xs
    (acts1 acts2 : list (action K)) :
  h !! items u = Some xs →
  ∃ ys,
    ys = match compareFn u with None => xs | Some f => sort_by f xs end
    ∧ contents (sortedItems u (run acts1 s) h) = Some ys
    ∧ contents (sortedItems u (run acts2 s) h) = Some ys.
Proof.
  intros Hxs. eexists; split; [done|].
  split; by apply sortedItems_contents.
Qed.

(** Where no comparator was supplied and no sort key is active, the
    getter returns a shallow copy: a new array, whose elements are those
    of the input in the original order. *)
Theorem sortedItems_no_key_copy u s h xs :
  h !! items u = Some xs →
  sortBy s = None →
  compareFn u = None →
  ∃ h' r, sortedItems u s h = Some (h', r)
    ∧ r ≠ items u ∧ h !! r = None
    ∧ h' !! r = Some xs.
Proof.
  intros Hxs _ Hcmp.
  destruct (sortedItems_run u s h xs Hxs) as (h' & Hrun & _ & Hnew).
  exists h', (length h). split; [done|]. rewrite Hcmp in Hnew.
  split; [|split; [|done]].
  - apply lookup_lt_Some in Hxs. unfold ref in *. lia.
  - by apply lookup_ge_None_2.
Qed.

(** C4: evaluating [sortedItems], with any comparator or with none,
    returns and leaves the input array as it was: same length, same
    elements at the same positions. *)
Theorem sortedItems_preserves_input u s h xs :
  h !! items u = Some xs →
  ∃ h' r, sortedItems u s h = Some (h', r) ∧ h' !! items u = Some xs.
Proof.
  intros Hxs.
  destruct (sortedItems_run u s h xs Hxs) as (h' & Hrun & Hold & _).
  exists h', (length h). split; [done|].
  rewrite Hold; [done|]. by apply lookup_lt_Some in Hxs.
Qed.

(** C5: with any comparator or with none, the output of the sort stage is
    a permutation of the input, of the same length. *)
Theorem sortedItems_permutation u s h xs :
  h !! items u = Some xs →
  ∃ ys, contents (sortedItems u s h) = Some ys
    ∧ ys ≡ₚ xs ∧ length ys = length xs.
Proof.
  intros Hxs. rewrite (sortedItems_contents u s h xs Hxs).
  eexists; split; [done|].
  destruct (compareFn u) as [f|]; [|done].
  split; [apply sort_by_perm|apply sort_by_length].
Qed.

(** C6 (as amended): for a comparator that is consistent on the items
    (and when there is none), sorting is idempotent: the sort stage
    applied to its own output returns an array with the same elements in
    the same order. *)
Theorem sortedItems_idempotent u s h xs :
  h !! items u = Some xs →
  (∀ f, compareFn u = Some f → consistent f xs) →
  ∃ ys, contents (sortedItems u s h) = Some ys
    ∧ contents (resort u s h) = Some ys.
Proof.
  intros Hxs Hcons.
  destruct (sortedItems_run u s h xs Hxs) as (h1 & Hrun & _ & Hnew).
  eexists; split; [by apply sortedItems_contents|].
  unfold resort. rewrite Hrun. cbn [mbind option_bind].
  rewrite (sortedItems_contents
             {| items := length h; compareFn := compareFn u |} s h1 _ Hnew).
  cbn [compareFn]. destruct (compareFn u) as [f|]; [|done].
  by rewrite sort_by_idemp by auto.
Qed.

End UseSortClaims.

Section UseSortExamples.
Import JsArray UseSort.

(** C1 does not hold of the code: [useSort(users)], no comparator
    supplied, with [sortBy.value = 'age'] and [sortOrder] 'asc' yields
    Alice (30), Bob (25), Charlie (35), the order of the input, where the
    ordering by the field values of the key is Bob, Alice, Charlie.  The
    getter reads neither [sortBy] nor [sortOrder]. *)
Lemma sortedItems_not_native_order :
  users_store !! items by_age_no_comparator.1 = Some users
  ∧ compareFn by_age_no_comparator.1 = None
  ∧ sortBy by_age_no_comparator.2 = Some k_age
  ∧ contents (sortedItems by_age_no_comparator.1 by_age_no_comparator.2
                users_store) = Some [alice; bob; charlie]
  ∧ spec_native_sort user_field k_age (sortOrder by_age_no_comparator.2)
      users = [bob; alice; charlie]
  ∧ contents (sortedItems by_age_no_comparator.1 by_age_no_comparator.2
                users_store)
    ≠ Some (spec_native_sort user_field k_age
              (sortOrder by_age_no_comparator.2) users).
Proof. repeat split. by vm_compute. Qed.

Lemma sortedItems_independent_of_sort_state_witness :
  users_store !! items users_by_age.1 = Some users
  ∧ ∃ ys, ys = [bob; alice; charlie]
    ∧ contents (sortedItems users_by_age.1
        (run [SetSortBy (Some k_age); SetSortOrder desc] users_by_age.2)
        users_store) = Some ys
    ∧ contents (sortedItems users_by_age.1
        (run [SetSortBy (Some k_name); ClearSort] users_by_age.2)
        users_store) = Some ys.
Proof.
  split; [reflexivity|].
  apply (sortedItems_independent_of_sort_state users_by_age.1
           users_by_age.2 users_store users).
  reflexivity.
Defined.

Lemma sortedItems_no_key_copy_witness :
  users_store !! items users_no_key.1 = Some users
  ∧ sortBy users_no_key.2 = None
  ∧ compareFn users_no_key.1 = None
  ∧ ∃ h' r, sortedItems users_no_key.1 users_no_key.2 users_store
              = Some (h', r)
    ∧ r ≠ items users_no_key.1 ∧ users_store !! r = None
    ∧ h' !! r = Some users.
Proof.
  refine (conj eq_refl (conj eq_refl (conj eq_refl _))).
  apply (sortedItems_no_key_copy users_no_key.1 users_no_key.2
           users_store users); reflexivity.
Defined.

(** C3 does not hold of the code:
    [useSort([3, 1, 2], (a, b) => a - b)] with no sort key active yields
    [[1, 2, 3]], not the copy [[3, 1, 2]] in the original order.  The
    getter sorts whenever a comparator was supplied; it does not read
    [sortBy]. *)
Lemma sortedItems_no_key_reorders :
  numbers_store !! items numeric_no_key.1 = Some [3; 1; 2]
  ∧ sortBy numeric_no_key.2 = None
  ∧ contents (sortedItems numeric_no_key.1 numeric_no_key.2 numbers_store)
    = Some [1; 2; 3]
  ∧ contents (sortedItems numeric_no_key.1 numeric_no_key.2 numbers_store)
    ≠ Some [3; 1; 2].
Proof. repeat split. by vm_compute. Qed.

Lemma sortedItems_preserves_input_witness :
  numbers_store !! items numeric_no_key.1 = Some [3; 1; 2]
  ∧ ∃ h' r, sortedItems numeric_no_key.1 numeric_no_key.2 numbers_store
              = Some (h', r)
    ∧ h' !! items numeric_no_key.1 = Some [3; 1; 2].
Proof.
  split; [reflexivity|].
  apply (sortedItems_preserves_input numeric_no_key.1 numeric_no_key.2
           numbers_store [3; 1; 2]).
  reflexivity.
Defined.

Lemma sortedItems_permutation_witness :
  numbers_store !! items numeric_no_key.1 = Some [3; 1; 2]
  ∧ ∃ ys, contents (sortedItems numeric_no_key.1 numeric_no_key.2
                      numbers_store) = Some ys
    ∧ ys ≡ₚ [3; 1; 2] ∧ length ys = 3%nat.
Proof.
  split; [reflexivity|].
  apply (sortedItems_permutation numeric_no_key.1 numeric_no_key.2
           numbers_store [3; 1; 2]).
  reflexivity.
Defined.

Lemma sortedItems_idempotent_witness :
  numbers_store !! items numeric_no_key.1 = Some [3; 1; 2]
  ∧ ∃ ys, contents (sortedItems numeric_no_key.1 numeric_no_key.2
                      numbers_store) = Some ys
    ∧ contents (resort numeric_no_key.1 numeric_no_key.2 numbers_store)
      = Some ys.
Proof.
  split; [reflexivity|].
  apply (sortedItems_idempotent numeric_no_key.1 numeric_no_key.2
           numbers_store [3; 1; 2]); [reflexivity|].
  intros f [= <-]. split; unfold numeric; intros; lia.
Defined.

(** C6 fails for a comparator that is not consistent: under [two_faced]
    the model of [sort] turns [[1, 2, 3, 4]] into [[2, 1, 3, 4]], and
    sorting that output again gives [[1, 2, 3, 4]] back. *)
Lemma sortedItems_not_idempotent :
  ascending_store !! items two_faced_sort.1 = Some [1; 2; 3; 4]
  ∧ contents (sortedItems two_faced_sort.1 two_faced_sort.2 ascending_store)
    = Some [2; 1; 3; 4]
  ∧ contents (resort two_faced_sort.1 two_faced_sort.2 ascending_store)
    = Some [1; 2; 3; 4]
  ∧ contents (resort two_faced_sort.1 two_faced_sort.2 ascending_store)
    ≠ contents (sortedItems two_faced_sort.1 two_faced_sort.2
                  ascending_store).
Proof. repeat split. by vm_compute. Qed.

(** [two_faced] is not consistent on these items: 1 is greater than 2 and
    2 greater than 1. *)
Example two_faced_not_consistent : ¬ consistent two_faced [1; 2; 3; 4].
Proof.
  intros H.
  pose proof (cmp_gt_trans _ _ H 1 2 1) as Hgt.
  pose proof (cmp_refl _ _ H 1) as Hrefl.
  unfold two_faced in *; simpl in *.
  assert (1 ∈ [1; 2; 3; 4]) by set_solver.
  assert (2 ∈ [1; 2; 3; 4]) by set_solver.
  specialize (Hgt ltac:(done) ltac:(done) ltac:(done) ltac:(lia) ltac:(lia)).
  specialize (Hrefl ltac:(done)). lia.
Qed.

End UseSortExamples.

(** ** Listener life cycle of useScroll, useWindowSize and useIdle *)

Section ListenerFacts.
Import Dom.
Implicit Types (b : browser) (cb : callback) (t : target) (ls : list listener).

Lemma filter_keeps_all {A} (P : A → Prop) `{!∀ x, Decision (P x)}
    (l : list A) :
  Forall P l → filter P l = l.
Proof.
  induction 1 as [|x l Hx _ IH]; [done|]. by rewrite filter_cons_True, IH.
Qed.

Lemma filter_drops_all {A} (P : A → Prop) `{!∀ x, Decision (P x)}
    (l : list A) :
  Forall (λ x, ¬ P x) l → filter P l = [].
Proof.
  induction 1 as [|x l Hx _ IH]; [done|]. by rewrite filter_cons_False.
Qed.

Lemma filter_unused cb t type ls :
  Forall (λ l, l_callback l ≠ cb) ls →
  filter (λ l', l' ≠ listener_of t type cb) ls = ls.
Proof.
  intros Hls. apply filter_keeps_all.
  eapply Forall_impl; [done|]. by intros l Hl ->.
Qed.

(** Removal takes out what registration put in, and nothing else. *)
Lemma remove_add t type cb b :
  listeners (removeEventListener t type cb
               (addEventListener t type cb passive_true b))
  = filter (λ l', l' ≠ listener_of t type cb) (listeners b).
Proof.
  unfold removeEventListener, addEventListener; simpl.
  fold (listener_of t type cb). case_decide as Hin; [done|].
  rewrite filter_app, filter_cons_False, filter_nil, app_nil_r; [done|].
  by intros [].
Qed.

Lemma add_elem_of t type cb b :
  listener_of t type cb ∈ listeners (addEventListener t type cb passive_true b).
Proof.
  unfold addEventListener; simpl. fold (listener_of t type cb).
  case_decide; [done|]. set_solver.
Qed.

Lemma add_mono t type cb l b :
  l ∈ listeners b → l ∈ listeners (addEventListener t type cb passive_true b).
Proof. unfold addEventListener; simpl. case_decide; set_solver. Qed.

Lemma setTimeout_listeners b : listeners (setTimeout b).2 = listeners b.
Proof. done. Qed.

Lemma clearTimeout_listeners id b : listeners (clearTimeout id b) = listeners b.
Proof. by destruct id. Qed.

(** Registering the same callback for several event types, as
    [events.forEach] does, adds listeners of that callback only. *)
Lemma add_all_listeners t cb types b :
  ∃ news, listeners (foldl (λ b0 ev, addEventListener t ev cb passive_true b0)
                       b types) = listeners b ++ news
    ∧ Forall (λ l, ∃ ty, ty ∈ types ∧ l = listener_of t ty cb) news
    ∧ ∀ ty, ty ∈ types → listener_of t ty cb ∈ listeners b ++ news.
Proof.
  revert b. induction types as [|ty types IH]; intros b; simpl.
  { exists []. rewrite app_nil_r. split; [done|]. split; [done|]. set_solver. }
  destruct (IH (addEventListener t ty cb passive_true b))
    as (news & -> & Hnews & Hall).
  unfold addEventListener in *; simpl in *. fold (listener_of t ty cb) in *.
  case_decide as Hin.
  - exists news. split; [done|]. split.
    + eapply Forall_impl; [done|]. intros l (ty' & ? & ->). set_solver.
    + intros ty' [->|?]%elem_of_cons; [set_solver|auto].
  - exists (listener_of t ty cb :: news). rewrite <-app_assoc. split; [done|].
    split.
    + constructor; [set_solver|].
      eapply Forall_impl; [done|]. intros l (ty' & ? & ->). set_solver.
    + intros ty' [->|?]%elem_of_cons; [set_solver|].
      rewrite <-app_assoc in Hall. auto.
Qed.

Lemma remove_all_listeners t cb types b :
  listeners (foldl (λ b0 ev, removeEventListener t ev cb b0) b types)
  = filter (λ l, Forall (λ ty, l ≠ listener_of t ty cb) types) (listeners b).
Proof.
  revert b. induction types as [|ty types IH]; intros b; simpl.
  { symmetry. apply filter_keeps_all, Forall_true. constructor. }
  rewrite IH. unfold removeEventListener; simpl. fold (listener_of t ty cb).
  rewrite list_filter_filter. apply list_filter_iff. intros l.
  rewrite Forall_cons. tauto.
Qed.

Lemma remove_all_add_all t cb types b :
  listeners (foldl (λ b0 ev, removeEventListener t ev cb b0)
    (foldl (λ b0 ev, addEventListener t ev cb passive_true b0) b types) types)
  = filter (λ l, Forall (λ ty, l ≠ listener_of t ty cb) types) (listeners b).
Proof.
  rewrite remove_all_listeners.
  destruct (add_all_listeners t cb types b) as (news & -> & Hnews & _).
  rewrite filter_app, (filter_drops_all _ news); [by rewrite app_nil_r|].
  eapply Forall_impl; [done|]. intros l (ty & Hty & ->) Hall.
  rewrite Forall_forall in Hall. by apply (Hall ty).
Qed.

Lemma filter_unused_all cb t types ls :
  Forall (λ l, l_callback l ≠ cb) ls →
  filter (λ l, Forall (λ ty, l ≠ listener_of t ty cb) types) ls = ls.
Proof.
  intros Hls. apply filter_keeps_all.
  eapply Forall_impl; [done|]. intros l Hl.
  apply Forall_forall. by intros ty _ ->.
Qed.

End ListenerFacts.

Section ScrollFacts.
Import Dom UseScroll.
Implicit Types (st : state) (b : browser).

Lemma updateScrollState_frame p st b :
  scroll_frame (st, b) (updateScrollState p st b).
Proof.
  unfold scroll_frame, updateScrollState; simpl.
  by rewrite clearTimeout_listeners.
Qed.

Lemma scroll_deliver_frame sb e : scroll_frame sb (deliver sb e).
Proof.
  destruct sb as [st b], e as [p|]; simpl.
  - apply updateScrollState_frame.
  - destruct (pending _ _); [|done].
    unfold scroll_frame, scroll_timer, timer_done; simpl.
    by rewrite clearTimeout_listeners.
Qed.

Lemma scroll_deliveries_frame evs sb : scroll_frame sb (foldl deliver sb evs).
Proof.
  revert sb. induction evs as [|e evs IH]; intros sb; simpl; [done|].
  destruct (IH (deliver sb e)) as (H1 & H2 & H3).
  destruct (scroll_deliver_frame sb e) as (H4 & H5 & H6).
  unfold scroll_frame. by rewrite H1, H2, H3.
Qed.

Lemma useScroll_subscribed p st b :
  listener_of (scroll_target st) "scroll" (updateScrollState_fn st)
    ∈ listeners (onMounted p st b).2.
Proof.
  unfold onMounted.
  pose proof (updateScrollState_frame p st b) as (Ht & Hh & _).
  destruct (updateScrollState p st b) as [st' b']; simpl in *.
  rewrite Ht, Hh. apply add_elem_of.
Qed.

Lemma useScroll_released p evs st b :
  listeners (lifetime p evs st b).2
  = filter (λ l', l' ≠ listener_of (scroll_target st) "scroll"
                         (updateScrollState_fn st)) (listeners b).
Proof.
  unfold lifetime.
  pose proof (scroll_deliveries_frame evs (onMounted p st b)) as (Ht & Hh & Hl).
  unfold onUnmounted; simpl. rewrite clearTimeout_listeners.
  unfold removeEventListener at 1; simpl. rewrite Hl, Ht, Hh. clear Ht Hh Hl.
  unfold onMounted.
  pose proof (updateScrollState_frame p st b) as (Ht & Hh & Hl).
  destruct (updateScrollState p st b) as [st' b']; simpl in *.
  rewrite Ht, Hh, <-Hl. apply remove_add.
Qed.

End ScrollFacts.

Section WindowSizeFacts.
Import Dom UseWindowSize.
Implicit Types (st : state) (b : browser).

Lemma resize_deliveries_frame rs (sb : state * browser) :
  updateSize_fn (foldl deliver sb rs).1 = updateSize_fn sb.1
  ∧ (foldl deliver sb rs).2 = sb.2.
Proof.
  revert sb. induction rs as [|w rs IH]; intros sb; simpl; [done|].
  by destruct (IH (deliver sb w)) as (-> & ->).
Qed.

Lemma useWindowSize_subscribed w st b :
  listener_of Window "resize" (updateSize_fn st) ∈ listeners (onMounted w st b).2.
Proof. apply add_elem_of. Qed.

Lemma useWindowSize_released w rs st b :
  listeners (lifetime w rs st b).2
  = filter (λ l', l' ≠ listener_of Window "resize" (updateSize_fn st))
      (listeners b).
Proof.
  unfold lifetime.
  pose proof (resize_deliveries_frame rs (onMounted w st b)) as (Hh & Hl).
  unfold onUnmounted; simpl. rewrite Hh, Hl. simpl.
  apply remove_add.
Qed.

End WindowSizeFacts.

Section IdleFacts.
Import Dom UseIdle.
Implicit Types (st : state) (b : browser).

Lemma handleActivity_frame now st b :
  idle_frame (st, b) (handleActivity now st b).
Proof.
  unfold idle_frame, handleActivity; simpl.
  by rewrite clearTimeout_listeners.
Qed.

Lemma stop_frame st b : idle_frame (st, b) (stop st b).
Proof. unfold idle_frame, stop; simpl. by rewrite clearTimeout_listeners. Qed.

Lemma idle_deliver_frame sb e : idle_frame sb (deliver sb e).
Proof.
  destruct sb as [st b], e as [now| |now| |now]; simpl.
  - apply handleActivity_frame.
  - destruct (pending _ _); [|done].
    unfold idle_frame, idle_timer, timer_done; simpl.
    by rewrite clearTimeout_listeners.
  - apply handleActivity_frame.
  - apply stop_frame.
  - unfold idle_frame, reset, stop; simpl. by rewrite clearTimeout_listeners.
Qed.

Lemma idle_deliveries_frame evs sb : idle_frame sb (foldl deliver sb evs).
Proof.
  revert sb. induction evs as [|e evs IH]; intros sb; simpl; [done|].
  destruct (IH (deliver sb e)) as (H1 & H2 & H3).
  destruct (idle_deliver_frame sb e) as (H4 & H5 & H6).
  unfold idle_frame. by rewrite H1, H2, H3.
Qed.

(** The first step of [onMounted]: [start()] unless the initial state is
    idle. *)
Lemma idle_mount_start_frame now st b :
  idle_frame (st, b) (if initialState st then (st, b) else start now st b).
Proof. destruct (initialState st); [done|apply handleActivity_frame]. Qed.

Lemma useIdle_subscribed now st b ty :
  ty ∈ events st →
  listener_of Document ty (handleActivity_fn st) ∈ listeners (onMounted now st b).2.
Proof.
  intros Hty. unfold onMounted.
  pose proof (idle_mount_start_frame now st b) as (He & Hh & _).
  destruct (if initialState st then _ else _) as [st' b']. cbn [fst snd] in *.
  rewrite He, Hh.
  destruct (add_all_listeners Document (handleActivity_fn st) (events st) b')
    as (news & -> & _ & Hall).
  by apply Hall.
Qed.

Lemma useIdle_released now evs st b :
  listeners (lifetime now evs st b).2
  = filter (λ l, Forall (λ ty, l ≠ listener_of Document ty (handleActivity_fn st))
                   (events st)) (listeners b).
Proof.
  unfold lifetime.
  pose proof (idle_deliveries_frame evs (onMounted now st b)) as (He & Hh & Hl).
  set (sb := foldl deliver (onMounted now st b) evs) in *.
  unfold onUnmounted.
  pose proof (stop_frame sb.1 sb.2) as (He' & Hh' & Hl').
  destruct (stop sb.1 sb.2) as [st3 b3]. cbn [fst snd] in *.
  rewrite remove_all_listeners, He', Hh', Hl', He, Hh, Hl.
  clear dependent sb. clear st3 b3.
  unfold onMounted.
  pose proof (idle_mount_start_frame now st b) as (He & Hh & Hl).
  destruct (if initialState st then _ else _) as [st' b']. cbn [fst snd] in *.
  rewrite He, Hh, <-remove_all_listeners, <-Hl.
  apply remove_all_add_all.
Qed.

End IdleFacts.

Section ListenerClaims.
Import Dom.

(** C8: in [useScroll], [useWindowSize] and [useIdle] the mounted hook
    subscribes the composable's handler and the unmounted hook removes
    that same handler, on the same target and for the same event types:
    after a mount, any events in between, and an unmount, the listeners
    of the page are those it had before less the composable's, so none
    the composable registered is subscribed; the page has exactly the
    listeners it had when the handler, a new closure, was in use by none
    of them. *)
Theorem mount_unmount_releases_listeners :
  (∀ p evs (st : UseScroll.state) b,
     let l := listener_of (UseScroll.scroll_target st) "scroll"
                (UseScroll.updateScrollState_fn st) in
     l ∈ listeners (UseScroll.onMounted p st b).2
     ∧ listeners (UseScroll.lifetime p evs st b).2
       = filter (λ l', l' ≠ l) (listeners b)
     ∧ ¬ (l ∈ listeners (UseScroll.lifetime p evs st b).2)
     ∧ (unused (UseScroll.updateScrollState_fn st) b →
        listeners (UseScroll.lifetime p evs st b).2 = listeners b))
  ∧ (∀ w rs (st : UseWindowSize.state) b,
     let l := listener_of Window "resize" (UseWindowSize.updateSize_fn st) in
     l ∈ listeners (UseWindowSize.onMounted w st b).2
     ∧ listeners (UseWindowSize.lifetime w rs st b).2
       = filter (λ l', l' ≠ l) (listeners b)
     ∧ ¬ (l ∈ listeners (UseWindowSize.lifetime w rs st b).2)
     ∧ (unused (UseWindowSize.updateSize_fn st) b →
        listeners (UseWindowSize.lifetime w rs st b).2 = listeners b))
  ∧ (∀ now evs (st : UseIdle.state) b,
     let l ty := listener_of Document ty (UseIdle.handleActivity_fn st) in
     Forall (λ ty, l ty ∈ listeners (UseIdle.onMounted now st b).2)
       (UseIdle.events st)
     ∧ listeners (UseIdle.lifetime now evs st b).2
       = filter (λ l', Forall (λ ty, l' ≠ l ty) (UseIdle.events st))
           (listeners b)
     ∧ Forall (λ ty, ¬ (l ty ∈ listeners (UseIdle.lifetime now evs st b).2))
         (UseIdle.events st)
     ∧ (unused (UseIdle.handleActivity_fn st) b →
        listeners (UseIdle.lifetime now evs st b).2 = listeners b)).
Proof.
  split; [|split].
  - intros p evs st b l. split; [apply useScroll_subscribed|].
    rewrite useScroll_released. fold l. split; [done|]. split.
    + rewrite list_elem_of_filter. by intros [? _].
    + apply filter_unused.
  - intros w rs st b l. split; [apply useWindowSize_subscribed|].
    rewrite useWindowSize_released. fold l. split; [done|]. split.
    + rewrite list_elem_of_filter. by intros [? _].
    + apply filter_unused.
  - intros now evs st b l. split.
    { apply Forall_forall. intros ty Hty. by apply useIdle_subscribed. }
    rewrite useIdle_released. split; [done|]. split.
    + apply Forall_forall. intros ty Hty.
      rewrite list_elem_of_filter, Forall_forall. intros [Hall _].
      by apply (Hall ty).
    + apply filter_unused_all.
Qed.

End ListenerClaims.

Section ListenerExamples.
Import Dom.

Lemma mount_unmount_releases_listeners_witness :
  (unused (UseScroll.updateScrollState_fn scroll_instance) busy_page
   ∧ listeners (UseScroll.lifetime scrolled_down
        [UseScroll.Scrolled scrolled_down; UseScroll.TimerRan]
        scroll_instance busy_page).2 = listeners busy_page)
  ∧ (unused (UseWindowSize.updateSize_fn size_instance) busy_page
   ∧ listeners (UseWindowSize.lifetime desktop [desktop] size_instance
        busy_page).2 = listeners busy_page)
  ∧ (unused (UseIdle.handleActivity_fn idle_instance) busy_page
   ∧ listeners (UseIdle.lifetime 1000 [UseIdle.Activity 2000; UseIdle.TimerRan]
        idle_instance busy_page).2 = listeners busy_page).
Proof.
  assert (∀ cb : callback, cb ≠ 7%nat → cb ≠ 8%nat → unused cb busy_page)
    as Hunused.
  { intros cb ??. repeat constructor; simpl; congruence. }
  destruct mount_unmount_releases_listeners as (Hscroll & Hsize & Hidle).
  split; [|split].
  - assert (unused (UseScroll.updateScrollState_fn scroll_instance) busy_page)
      as H by (apply Hunused; simpl; lia).
    split; [exact H|].
    exact (proj2 (proj2 (proj2 (Hscroll _ _ _ _))) H).
  - assert (unused (UseWindowSize.updateSize_fn size_instance) busy_page)
      as H by (apply Hunused; simpl; lia).
    split; [exact H|].
    exact (proj2 (proj2 (proj2 (Hsize _ _ _ _))) H).
  - assert (unused (UseIdle.handleActivity_fn idle_instance) busy_page)
      as H by (apply Hunused; simpl; lia).
    split; [exact H|].
    exact (proj2 (proj2 (proj2 (Hidle _ _ _ _))) H).
Defined.

(** After the mount the page of the example has one listener more, the
    composable's; after the unmount it is gone. *)
Example useScroll_lifetime_on_busy_page :
  length (listeners (UseScroll.onMounted scrolled_down scroll_instance
                       busy_page).2) = 3%nat
  ∧ listeners (UseScroll.lifetime scrolled_down [] scroll_instance busy_page).2
    = listeners busy_page.
Proof. by vm_compute. Qed.

End ListenerExamples.

(** ** Pagination *)

Section PaginationFacts.
Import Pagination.

Lemma totalPages_ge_1 totalItems p : 1 ≤ totalPages totalItems p.
Proof. unfold totalPages. lia. Qed.

(** C7: [setPage] clamps the requested page into [1, totalPages]: a page
    below 1 gives page 1, a page above [totalPages] gives [totalPages],
    and [currentPage] is in range in every case. *)
Theorem setPage_clamps totalItems n p :
  (n < 1 → currentPage (setPage totalItems n p) = 1)
  ∧ (n > totalPages totalItems p →
     currentPage (setPage totalItems n p) = totalPages totalItems p)
  ∧ 1 ≤ currentPage (setPage totalItems n p) ≤ totalPages totalItems p
  ∧ totalPages totalItems (setPage totalItems n p) = totalPages totalItems p.
Proof.
  pose proof (totalPages_ge_1 totalItems p).
  unfold setPage, clamp; simpl. repeat split; try lia.
Qed.

Lemma setPage_clamps_witness :
  totalPages 12 twelve_rows_page_2 = 3
  ∧ currentPage (setPage 12 0 twelve_rows_page_2) = 1
  ∧ currentPage (setPage 12 999 twelve_rows_page_2) = 3.
Proof.
  split; [reflexivity|]. split.
  - apply (setPage_clamps 12 0 twelve_rows_page_2). lia.
  - rewrite (proj1 (proj2 (setPage_clamps 12 999 twelve_rows_page_2)));
      [reflexivity|]. vm_compute. reflexivity.
Defined.

End PaginationFacts.

(** ** useLocalStorage *)

Section LocalStorageFacts.
Import UseLocalStorage.
Context {T : Type}.
Variable JSON_parse : string → completion T.
Variable JSON_stringify : T → completion string.

(** C9 (as amended): for every key, initial value and options whose
    [onError] callback returns normally (the default, [console.error],
    does), [read] returns a value and throws nothing: the default value
    when [getItem] returns [null]; the default value, after a call of
    [onError] with the error, when [getItem] or the serializer throws; and
    with the default serializer the default value when the stored text
    does not parse. *)
Theorem read_total key (initialValue : T) o ls log :
  (∀ f e, opt_onError o = Some f → f e = Normal tt) →
  let u := useLocalStorage JSON_parse JSON_stringify key initialValue o in
  (∃ v log', read u ls log = (Normal v, log'))
  ∧ (getItem key ls = Normal None →
     read u ls log = (Normal (defaultValue u), log))
  ∧ (∀ e, getItem key ls = Throw e →
     read u ls log = (Normal (defaultValue u), log ++ [e]))
  ∧ (∀ raw e, getItem key ls = Normal (Some raw) →
     ser_read (serializer u) raw = Throw e →
     read u ls log = (Normal (defaultValue u), log ++ [e]))
  ∧ (∀ raw e, opt_serializer o = None →
     getItem key ls = Normal (Some raw) →
     JSON_parse raw = Throw e →
     read u ls log = (Normal (defaultValue u), log)).
Proof.
  intros HonError u.
  assert (∀ e, onError u e = Normal tt) as Hon.
  { intros e. unfold u, useLocalStorage; simpl.
    destruct (opt_onError o) as [f|] eqn:Hf; simpl; [by eapply HonError|done]. }
  assert (key = UseLocalStorage.key u) as Hkey by done.
  unfold read, try_catch, bind, lift, ret, call_onError.
  rewrite <-Hkey.
  split; [|split; [|split; [|split]]].
  - destruct (getItem key ls) as [[raw|]|e]; [|by eauto|rewrite Hon; by eauto].
    destruct (ser_read (serializer u) raw); [by eauto|rewrite Hon; by eauto].
  - by intros ->.
  - intros e ->. by rewrite Hon.
  - intros raw e -> ->. by rewrite Hon.
  - intros raw e Hser -> Hparse.
    unfold u, useLocalStorage; simpl. rewrite Hser; simpl. by rewrite Hparse.
Qed.

End LocalStorageFacts.

Section LocalStorageExamples.
Import UseLocalStorage.

Lemma read_total_witness :
  (∃ v log', read with_defaults refusing [] = (Normal v, log'))
  ∧ read with_defaults refusing [] = (Normal 0, ["SecurityError"]).
Proof.
  pose proof (read_total parse_number stringify_number "count" 0
    {| opt_defaultValue := None; opt_serializer := None; opt_onError := None |}
    refusing []) as H.
  simpl in H. destruct H as (Htotal & _ & Hthrow & _); [discriminate|].
  split; [exact Htotal|]. by apply Hthrow.
Defined.

(** C9 fails for a callback that throws: with
    [onError: e => { throw e }] and a storage that refuses access, [read]
    completes abruptly, with the error [getItem] threw. *)
Lemma read_propagates_onError_throw :
  read rethrowing refusing [] = (Throw "SecurityError", ["SecurityError"])
  ∧ ¬ ∃ v log', read rethrowing refusing [] = (Normal v, log').
Proof. split; [reflexivity|]. by intros (v & log' & [=]). Qed.

Example read_parses_stored_text :
  read with_defaults {| entries := [("count", "42")]; refused := None |} []
  = (Normal 42, []).
Proof. reflexivity. Qed.

Example read_unparsable_text :
  read with_defaults {| entries := [("count", "4x")]; refused := None |} []
  = (Normal 0, []).
Proof. reflexivity. Qed.

End LocalStorageExamples.

(** ** useGenerator *)

Section GeneratorFacts.
Import UseGenerator.
Context {T G : Type}.
Implicit Types (o : UseGeneratorOptions T G) (st : state T G) (c : call T).

Lemma next_spec o st :
  (next o st).1 = (getNext o (closure st) (current st)).1
  ∧ current (next o st).2 = (next o st).1
  ∧ history (next o st).2 = history st ++ [(next o st).1].
Proof. unfold next. by destruct (getNext o _ _). Qed.

Lemma step_invariant o st c :
  history (step o st c) ≠ [] ∧ history_ends_with_current (step o st c).
Proof.
  unfold history_ends_with_current. destruct c as [|v]; simpl.
  - destruct (next_spec o st) as (_ & -> & ->).
    split; [by destruct (history st)|apply last_snoc].
  - unfold reset. destruct v; [|done].
    destruct (initial o); [|done]. by destruct (getNext o _ _).
Qed.

Lemma states_invariant o cs : ∀ st,
  Forall (λ st', history st' ≠ [] ∧ history_ends_with_current st')
    (states o st cs).
Proof.
  induction cs as [|c cs IH]; intros st; simpl; constructor.
  - apply step_invariant.
  - apply IH.
Qed.

(** C10: along every sequence of [next()] and [reset()] calls, after each
    call [history] is not empty and its last element is [current]; and each
    [next()] returns the new [current], which is [getNext] applied to the
    previous [current], and makes [history] one element longer. *)
Theorem history_tracks_current (truthy : T → bool) o (g : G) (cs : list (call T)) :
  Forall (λ st, history st ≠ [] ∧ last (history st) = Some (current st))
    (states o (useGenerator truthy o g) cs)
  ∧ ∀ st, (next o st).1 = current (next o st).2
      ∧ (next o st).1 = (getNext o (closure st) (current st)).1
      ∧ history (next o st).2 = history st ++ [(next o st).1]
      ∧ length (history (next o st).2) = S (length (history st)).
Proof.
  split; [apply states_invariant|].
  intros st. destruct (next_spec o st) as (H1 & H2 & H3).
  repeat split; [done|done|done|].
  rewrite H3, length_app; simpl; lia.
Qed.

End GeneratorFacts.

Section GeneratorExamples.
Import UseGenerator.

(** The counter that starts at [0]: its history is empty before the first
    call and in step with [current] after it. *)
Example counter_history :
  history counter = []
  ∧ history (next counter_options counter).2 = [val 1]
  ∧ (history <$> states counter_options counter [Next; Next; Reset undefined; Next])
    = [[val 1]; [val 1; val 2]; [val 0]; [val 0; val 1]].
Proof. by vm_compute. Qed.

End GeneratorExamples.

(** ** Sums of JavaScript numbers *)

Section DoubleFacts.
Import Double.

(** Within [2 ^ 53] nothing is rounded. *)
Lemma round_safe z : safe z → round z = z.
Proof.
  unfold safe, round. intros Hz.
  assert ((Z.abs z <=? 2 ^ 53) = true) as -> by lia. done.
Qed.

Lemma add_safe x y : safe (x + y) → add x y = x + y.
Proof. apply round_safe. Qed.

Lemma sub_safe x y : safe (x - y) → sub x y = x - y.
Proof. apply round_safe. Qed.

(** What is rounded keeps its 53 leading bits or gains one. *)
Lemma round_magnitude z :
  2 ^ 53 < Z.abs z → ∃ m, 2 ^ 53 ≤ m ∧ round z = Z.sgn z * m.
Proof.
  intros Hz. unfold round.
  assert ((Z.abs z <=? 2 ^ 53) = false) as -> by lia.
  set (a := Z.abs z) in *. set (e := Z.log2 a - 52).
  assert (53 ≤ Z.log2 a) as Hlog.
  { change 53 with (Z.log2 (2 ^ 53)). apply Z.log2_le_mono. lia. }
  assert (0 < a) as Ha by lia.
  destruct (Z.log2_spec a Ha) as [Hlo _].
  assert (2 ^ Z.log2 a = 2 ^ 52 * 2 ^ e) as Hsplit.
  { rewrite <-Z.pow_add_r by lia. f_equal. lia. }
  assert (0 < 2 ^ e) as He by (apply Z.pow_pos_nonneg; lia).
  assert (2 ^ 52 ≤ a / 2 ^ e) as Hq.
  { rewrite <-(Z.div_mul (2 ^ 52) (2 ^ e)) by lia.
    apply Z.div_le_mono; lia. }
  assert (2 ^ 53 ≤ 2 ^ Z.log2 a) as Hpow by (apply Z.pow_le_mono_r; lia).
  eexists; split; [|reflexivity].
  set (q := a / 2 ^ e) in *.
  assert (2 ^ 52 * 2 ^ e ≤ q * 2 ^ e) as Hmul by nia.
  destruct (_ <? _); [lia|]. destruct (_ <? _); [nia|].
  destruct (Z.even q); [lia|nia].
Qed.

Lemma round_above z : 2 ^ 53 < z → 2 ^ 53 ≤ round z.
Proof.
  intros Hz. destruct (round_magnitude z) as (m & Hm & ->); [lia|].
  rewrite Z.sgn_pos by lia. lia.
Qed.

Lemma round_below z : z < - 2 ^ 53 → round z ≤ - 2 ^ 53.
Proof.
  intros Hz. destruct (round_magnitude z) as (m & Hm & ->); [lia|].
  rewrite Z.sgn_neg by lia. lia.
Qed.

(** Rounding does not cross an integer of the safe range. *)
Lemma round_ge z b : safe b → b ≤ z → b ≤ round z.
Proof.
  intros Hb Hz. destruct (decide (z ≤ 2 ^ 53)) as [Hle|Hgt].
  - rewrite round_safe; [done|]. unfold safe in *. lia.
  - pose proof (round_above z). unfold safe in *. lia.
Qed.

Lemma round_le z b : safe b → z ≤ b → round z ≤ b.
Proof.
  intros Hb Hz. destruct (decide (- 2 ^ 53 ≤ z)) as [Hge|Hlt].
  - rewrite round_safe; [done|]. unfold safe in *. lia.
  - pose proof (round_below z). unfold safe in *. lia.
Qed.

(** Beyond [2 ^ 53] a sum is rounded: [2 ^ 53 + 1] is no double, and a
    tie goes to the even significand. *)
Example add_rounds :
  add (2 ^ 53) 1 = 2 ^ 53 ∧ add (2 ^ 53 + 2) 1 = 2 ^ 53 + 4
  ∧ sub 1 (2 ^ 53 + 2) = - 2 ^ 53.
Proof. by vm_compute. Qed.

End DoubleFacts.

(** ** useSort: the sort state and the date comparator *)

Section SortStateFacts.
Import JsArray UseSort UseSortState.
Context {T K : Type}.
Implicit Types (s : refs T K) (op : operation T K).

Lemma apply_operation_currentSort s op :
  currentSort s = None → currentSort (apply_operation s op) = None.
Proof. by destruct op as [[k|o|]|o|k]. Qed.

(** X1: nothing [useSort] offers ever sets [currentSort]: after any
    assignments to [sortBy] and [sortOrder], calls of [clearSort] and
    additions and removals of sort options it is still [undefined]. *)
Theorem currentSort_stays_undefined (r : ref) (cmp : option (comparator T))
    (ops : list (operation T K)) :
  currentSort (run_operations ops (useSort r cmp).2) = None.
Proof.
  unfold run_operations.
  assert (currentSort (useSort (K:=K) r cmp).2 = None) as H by done.
  revert H. generalize (useSort (K:=K) r cmp).2 as s.
  induction ops as [|op ops IH]; intros s Hs; simpl; [done|].
  by apply IH, apply_operation_currentSort.
Qed.

Lemma removeSortOption_sortBy k s :
  sortBy (removeSortOption k s) = sortBy s
  ∧ sortOrder (removeSortOption k s) = sortOrder s
  ∧ currentSort (removeSortOption k s) = currentSort s.
Proof. done. Qed.

(** X2: removing the key of an option that was just added, when no other
    option was registered under that key, gives back the sort state there
    was; and a removal drops every option registered under the key, so an
    option added twice is gone after one removal. *)
Theorem removeSortOption_addSortOption (o : SortOption T) s :
  (Forall (λ o', key o' ≠ key o) (sortOptions s) →
   removeSortOption (key o) (addSortOption o s) = s)
  ∧ removeSortOption (key o) (addSortOption o (addSortOption o s))
    = removeSortOption (key o) s
  ∧ Forall (λ o', key o' ≠ key o)
      (sortOptions (removeSortOption (key o) (addSortOption o s))).
Proof.
  unfold removeSortOption, addSortOption; simpl. split; [|split].
  - intros Hfresh. destruct s as [sb so cs opts]; simpl in *. f_equal.
    rewrite filter_app, filter_cons_False, filter_nil, app_nil_r by tauto.
    by apply filter_keeps_all.
  - f_equal. rewrite !filter_app, !filter_cons_False, filter_nil by tauto.
    by rewrite !app_nil_r.
  - apply Forall_forall. intros o'. rewrite list_elem_of_filter. tauto.
Qed.

(** X30: at most one key is sorted by: [getSortDirection] gives a
    direction for the key [sortBy] holds, which is [sortOrder], and [null]
    for every other key; after [clearSort()] it gives [null] for every
    key, the order is 'asc' again and the sort options are kept. *)
Theorem sort_direction_of_one_key `{EqDecision K} s (k k' : K) :
  (∀ o, getSortDirection s k = Some o ↔ sortBy s = Some k ∧ o = sortOrder s)
  ∧ (isSortedBy s k = true → k' ≠ k →
     isSortedBy s k' = false ∧ getSortDirection s k' = None)
  ∧ getSortDirection (clearSort s) k = None
  ∧ sortOrder (clearSort s) = asc
  ∧ sortOptions (clearSort s) = sortOptions s.
Proof.
  unfold getSortDirection, isSortedBy. split; [|split; [|done]].
  - intros o. case_bool_decide as Hk; split.
    + by intros [= <-].
    + by intros [_ ->].
    + done.
    + by intros [? _].
  - intros Hk%bool_decide_eq_true Hne.
    rewrite bool_decide_false; [done|]. congruence.
Qed.

End SortStateFacts.

Section SortStateExamples.
Import JsArray UseSort UseSortState.

Lemma removeSortOption_addSortOption_witness :
  Forall (λ o', key o' ≠ key by_age_option)
    (sortOptions (addSortOption by_name_option users_no_key.2))
  ∧ removeSortOption "age"
      (addSortOption by_age_option
         (addSortOption by_name_option users_no_key.2))
    = addSortOption by_name_option users_no_key.2.
Proof.
  assert (Forall (λ o', key o' ≠ key by_age_option)
            (sortOptions (addSortOption by_name_option users_no_key.2)))
    as H by (repeat constructor; simpl; discriminate).
  split; [exact H|].
  exact (proj1 (removeSortOption_addSortOption by_age_option _) H).
Defined.

Lemma sort_direction_of_one_key_witness :
  isSortedBy by_age_no_comparator.2 k_age = true
  ∧ isSortedBy by_age_no_comparator.2 k_name = false
  ∧ getSortDirection by_age_no_comparator.2 k_name = None.
Proof.
  split; [reflexivity|].
  apply (proj1 (proj2 (sort_direction_of_one_key by_age_no_comparator.2
                         k_age k_name))); [reflexivity|discriminate].
Defined.

End SortStateExamples.

Section DateCompareFacts.
Import JsArray UseSort UseSortState.

Lemma createDateCompare_consistent (ts : list Z) :
  consistent createDateCompare (Some <$> ts).
Proof.
  split.
  - intros a [t [-> _]]%list_elem_of_fmap. simpl. lia.
  - intros a b [t [-> _]]%list_elem_of_fmap [t' [-> _]]%list_elem_of_fmap.
    simpl. lia.
  - intros a b c [t [-> _]]%list_elem_of_fmap [t' [-> _]]%list_elem_of_fmap
      [t'' [-> _]]%list_elem_of_fmap. simpl. lia.
  - intros a b c [t [-> _]]%list_elem_of_fmap [t' [-> _]]%list_elem_of_fmap
      [t'' [-> _]]%list_elem_of_fmap. simpl. lia.
  - intros a b c [t [-> _]]%list_elem_of_fmap [t' [-> _]]%list_elem_of_fmap
      [t'' [-> _]]%list_elem_of_fmap. simpl. lia.
Qed.

(** Sorting valid dates gives valid dates. *)
Lemma sort_by_valid_dates (ts : list Z) :
  ∃ ts', sort_by createDateCompare (Some <$> ts) = Some <$> ts'.
Proof.
  assert (Forall is_Some (sort_by createDateCompare (Some <$> ts))) as H.
  { rewrite sort_by_perm. apply Forall_fmap, Forall_true. by eexists. }
  revert H. generalize (sort_by createDateCompare (Some <$> ts)) as ds.
  induction ds as [|d ds IH]; intros H.
  - by exists [].
  - apply Forall_cons in H as [[t ->] [ts' ->]%IH]. by exists (t :: ts').
Qed.

Lemma Sorted_dates (ts : list Z) :
  Sorted (cmp_le createDateCompare) (Some <$> ts) → Sorted Z.le ts.
Proof.
  induction ts as [|t ts IH]; [constructor|].
  rewrite fmap_cons. inversion 1 as [|?? Hs Hhd]; subst.
  constructor; [by apply IH|].
  destruct ts as [|t' ts]; constructor.
  inversion Hhd as [|?? Hle]; subst. unfold cmp_le in Hle; simpl in Hle. lia.
Qed.

(** X3: with the comparator of [createDateCompare], [sortedItems] over an
    array of valid dates holds the same dates in chronological order,
    earliest first. *)
Theorem sortedItems_by_date (u : instance JsDate) {K} (s : refs JsDate K)
    (h : store JsDate) (ts : list Z) :
  h !! items u = Some (Some <$> ts) →
  compareFn u = Some createDateCompare →
  ∃ ts', contents (sortedItems u s h) = Some (Some <$> ts')
    ∧ ts' ≡ₚ ts ∧ StronglySorted Z.le ts'.
Proof.
  intros Hxs Hcmp. rewrite (sortedItems_contents u s h _ Hxs), Hcmp.
  destruct (sort_by_valid_dates ts) as [ts' Hts']. exists ts'.
  split; [by rewrite Hts'|].
  pose proof (sort_by_perm createDateCompare (Some <$> ts)) as Hperm.
  pose proof (sort_by_sorted createDateCompare (Some <$> ts)
                (createDateCompare_consistent ts)) as Hsorted.
  rewrite Hts' in Hperm, Hsorted. split.
  - assert (∀ l : list Z, default 0 <$> (Some <$> l) = l) as Hinv.
    { induction l as [|z l IH]; [done|]. rewrite !fmap_cons. by f_equal. }
    apply (fmap_Permutation (default 0)) in Hperm. by rewrite !Hinv in Hperm.
  - apply Sorted_StronglySorted; [intros ???; lia|]. by apply Sorted_dates.
Qed.

Lemma sortedItems_by_date_witness :
  [january] !! items january_by_date.1
    = Some (Some <$> [1672704000000; 1672531200000; 1672617600000])
  ∧ compareFn january_by_date.1 = Some createDateCompare
  ∧ ∃ ts', contents (sortedItems january_by_date.1 january_by_date.2
                       [january]) = Some (Some <$> ts')
    ∧ ts' ≡ₚ [1672704000000; 1672531200000; 1672617600000]
    ∧ StronglySorted Z.le ts'.
Proof.
  refine (conj eq_refl (conj eq_refl _)).
  apply (sortedItems_by_date january_by_date.1 january_by_date.2 [january]);
    reflexivity.
Defined.

Example january_sorted :
  contents (sortedItems january_by_date.1 january_by_date.2 [january])
  = Some [Some 1672531200000; Some 1672617600000; Some 1672704000000].
Proof. reflexivity. Qed.

End DateCompareFacts.

(** ** The generators built on useGenerator *)

Section GeneratorMoreFacts.
Import UseGenerator Generators.
Context {T G : Type}.
Implicit Types (o : UseGeneratorOptions T G) (st : state T G).

Lemma after_snoc o st (cs : list (call T)) c :
  after o st (cs ++ [c]) = step o (after o st cs) c.
Proof. unfold after. by rewrite foldl_app. Qed.

Lemma replicate_S_snoc {A} (n : nat) (x : A) :
  replicate (S n) x = replicate n x ++ [x].
Proof. induction n as [|n IH]; [done|]. simpl in *. by rewrite <-IH. Qed.

(** X4: [clear()] drops the history so far and nothing else: however
    many calls of [next()] follow, [current] and the state of [getNext]
    are what they would have been without the [clear()], and the history
    holds just the values generated since the [clear()], one for each
    call. *)
Theorem clear_then_next o st (n : nat) :
  let kept := after o st (replicate n Next) in
  let cleared := after o (clear st) (replicate n Next) in
  current cleared = current kept
  ∧ closure cleared = closure kept
  ∧ length (history cleared) = n
  ∧ history kept = history st ++ history cleared.
Proof.
  induction n as [|n (Hcur & Hclo & Hlen & Hhist)].
  - simpl. by rewrite app_nil_r.
  - rewrite !replicate_S_snoc, !after_snoc. simpl. unfold next.
    rewrite Hcur, Hclo. destruct (getNext o _ _) as [v g]. simpl.
    rewrite Hhist, length_app, Hlen, app_assoc. simpl.
    repeat split; try done. lia.
Qed.

(** X5: [reset()] without a value puts [current] back to a defined
    initial value and makes the history that one value; this is the state
    [useGenerator] started in exactly when the initial value is truthy
    (for [0], [''] or [false] the history started out empty). *)
Theorem reset_restores_start (truthy : T → bool) o st (t : T) :
  initial o = val t →
  let st' := reset o undefined st in
  current st' = val t ∧ history st' = [val t] ∧ closure st' = closure st
  ∧ (st' = useGenerator truthy o (closure st) ↔ truthy t = true).
Proof.
  intros Hini st'. unfold st', reset, useGenerator. rewrite Hini; simpl.
  split; [done|]. split; [done|]. split; [done|].
  by destruct (truthy t).
Qed.

End GeneratorMoreFacts.

Section CounterGeneratorFacts.
Import UseGenerator Generators.

Lemma counter_values_S start step n :
  counter_values start step (S n)
  = counter_values start step n ++ [val (Num (start + Z.of_nat (S n) * step))].
Proof. unfold counter_values. by rewrite seq_S, fmap_app. Qed.

(** The values between two safe ones of the progression are safe. *)
Lemma safe_between (start step : Z) (n i : nat) :
  Double.safe start → Double.safe (start + Z.of_nat n * step) →
  (i ≤ n)%nat → Double.safe (start + Z.of_nat i * step).
Proof.
  unfold Double.safe. intros Hstart Hend Hi.
  destruct (decide (0 ≤ step)); nia.
Qed.

Lemma counter_generator_run (start step : Z) (n : nat) :
  (∀ i : nat, (i ≤ n)%nat → Double.safe (start + Z.of_nat i * step)) →
  let st := after (useCounterGenerator_options start step)
              (useCounterGenerator start step) (replicate n Next) in
  current st = val (Num (start + Z.of_nat n * step))
  ∧ history st
    = (if start =? 0 then [] else [val (Num start)])
      ++ counter_values start step n.
Proof.
  induction n as [|n IH]; intros Hsafe.
  - simpl. unfold useCounterGenerator, useGenerator; simpl.
    split; [f_equal; f_equal; lia|].
    destruct (start =? 0); simpl; by rewrite ?app_nil_r.
  - destruct IH as [IHc IHh]; [intros i Hi; apply Hsafe; lia|].
    rewrite replicate_S_snoc, after_snoc. simpl.
    unfold next; simpl. rewrite IHc, IHh; simpl.
    rewrite add_safe.
    + replace (start + Z.of_nat n * step + step)
        with (start + Z.of_nat (S n) * step) by lia.
      split; [done|]. by rewrite counter_values_S, app_assoc.
    + replace (start + Z.of_nat n * step + step)
        with (start + Z.of_nat (S n) * step) by lia.
      by apply Hsafe.
Qed.

(** X6: for integers [start] and [step] within [2 ^ 53], and as long as
    the counter generator has not left that range, where its sums are
    exact, it stands at [start + n * step] after [n] calls of [next()],
    and its history holds the values it went through, the start value
    itself only when it is not [0]. *)
Theorem counter_generator_nth (start step : Z) (n : nat) :
  Double.safe start → Double.safe step →
  Double.safe (start + Z.of_nat n * step) →
  let st := after (useCounterGenerator_options start step)
              (useCounterGenerator start step) (replicate n Next) in
  current st = val (Num (start + Z.of_nat n * step))
  ∧ history st
    = (if start =? 0 then [] else [val (Num start)])
      ++ counter_values start step n.
Proof.
  intros Hstart _ Hend. apply counter_generator_run.
  intros i Hi. by apply (safe_between start step n).
Qed.

End CounterGeneratorFacts.

Section ArrayGeneratorFacts.
Import UseGenerator Generators.
Context {T : Type}.
Variable truthy : T → bool.
Implicit Types (items : list T) (cs : list (call T)).

Lemma succ_mod (len n : nat) :
  len ≠ 0%nat → ((n mod len + 1) mod len = (n + 1) mod len)%nat.
Proof. intros. by rewrite Nat.Div0.add_mod_idemp_l. Qed.

Lemma pred_mod (len n : nat) :
  len ≠ 0%nat → (S n mod len = 0 → n mod len = len - 1)%nat.
Proof.
  intros Hlen H. apply Nat.Div0.div_exact in H.
  symmetry. apply (Nat.mod_unique n len (S n / len - 1) (len - 1)); [lia|].
  destruct (S n / len)%nat as [|q]; nia.
Qed.

(** With [loop] on, a call changes the index only if it is [next()]. *)
Lemma array_generator_index items cs :
  items ≠ [] →
  closure (after (useArrayGenerator_options items true)
             (useArrayGenerator truthy items true) cs)
  = (nexts cs mod length items)%nat.
Proof.
  intros Hne. assert (length items ≠ 0%nat) as Hlen by by destruct items.
  induction cs as [|c cs IH] using rev_ind.
  { simpl. by rewrite Nat.Div0.mod_0_l. }
  rewrite after_snoc.
  assert (nexts (cs ++ [c]) = (nexts cs + match c with Next => 1 | _ => 0 end)%nat)
    as ->.
  { clear. induction cs as [|[|v] cs IH]; simpl; [by destruct c|lia|done]. }
  destruct c as [|v]; simpl.
  - unfold next; simpl. rewrite bool_decide_false by done. simpl.
    by rewrite IH, succ_mod.
  - rewrite Nat.add_0_r. unfold reset. destruct v; [|done].
    by destruct items.
Qed.

(** X7: [reset()] does not rewind an array generator: with [loop] on,
    what a [next()] returns is the item at the number of [next()] calls
    made so far, modulo the length, however many [reset()] calls came in
    between. *)
Theorem array_generator_reset_keeps_index items cs :
  items ≠ [] →
  let o := useArrayGenerator_options items true in
  let st := after o (useArrayGenerator truthy items true) cs in
  ∃ x, items !! ((nexts cs + 1) mod length items)%nat = Some x
    ∧ (next o st).1 = val x
    ∧ current (next o st).2 = val x.
Proof.
  intros Hne o st. assert (length items ≠ 0%nat) as Hlen by by destruct items.
  destruct (lookup_lt_is_Some_2 items ((nexts cs + 1) mod length items)%nat)
    as [x Hx]; [by apply Nat.mod_upper_bound|].
  exists x. split; [done|].
  pose proof (array_generator_index items cs Hne) as Hidx.
  fold o in Hidx. fold st in Hidx. clearbody st.
  unfold next, o. cbn [getNext useArrayGenerator_options].
  rewrite bool_decide_false by done. cbn [negb andb].
  by rewrite Hidx, succ_mod, Hx.
Qed.

Lemma nexts_replicate (n : nat) : nexts (replicate n (@Next T)) = n.
Proof. induction n as [|n IH]; simpl; [done|]. by rewrite IH. Qed.

(** X8: with [loop] on, after [n] calls of [next()] an array generator
    over a non-empty array stands at the item of index [n] modulo the
    length: it cycles through the items in order. *)
Theorem array_generator_cycles items (n : nat) :
  items ≠ [] →
  ∃ x, items !! (n mod length items)%nat = Some x
    ∧ current (after (useArrayGenerator_options items true)
                 (useArrayGenerator truthy items true) (replicate n Next))
      = val x.
Proof.
  intros Hne. destruct n as [|n].
  - destruct items as [|x items]; [done|]. exists x. split; [|done].
    by rewrite Nat.Div0.mod_0_l.
  - rewrite replicate_S_snoc, after_snoc.
    destruct (array_generator_reset_keeps_index items (replicate n Next) Hne)
      as (x & Hx & _ & Hcur).
    rewrite nexts_replicate in Hx. exists x. split; [|done].
    by replace (S n) with (n + 1)%nat by lia.
Qed.

(** X9: with [loop] off the generator walks up to the last item and
    stays there for one call only: the index has wrapped to [0] by then,
    and the call after that returns the second item.  After [n] calls it
    stands at [no_loop_position]. *)
Theorem array_generator_no_loop items (n : nat) :
  items ≠ [] →
  let st := after (useArrayGenerator_options items false)
              (useArrayGenerator truthy items false) (replicate n Next) in
  closure st = (n mod length items)%nat
  ∧ ∃ x, items !! no_loop_position (length items) n = Some x
      ∧ current st = val x.
Proof.
  intros Hne. assert (length items ≠ 0%nat) as Hlen by by destruct items.
  induction n as [|n (Hidx & x & Hx & Hcur)].
  - simpl. split; [by rewrite Nat.Div0.mod_0_l|].
    destruct items as [|x items]; [done|]. by exists x.
  - rewrite replicate_S_snoc, after_snoc. simpl. unfold next; simpl.
    rewrite bool_decide_false by done. simpl. rewrite Hidx, succ_mod by done.
    replace (n + 1)%nat with (S n) by lia.
    assert (no_loop_position (length items) (S n)
            = if bool_decide (S n mod length items = 0)%nat
              then (length items - 1)%nat else (S n mod length items)%nat)
      as -> by (unfold no_loop_position; by rewrite bool_decide_false by lia).
    destruct (bool_decide_reflect (S n mod length items = 0)%nat)
      as [Hwrap|Hwrap]; simpl.
    + split; [done|]. exists x. split; [|done].
      rewrite <-Hx. f_equal. unfold no_loop_position.
      pose proof (pred_mod _ _ Hlen Hwrap) as Hpred.
      repeat case_bool_decide; subst; rewrite ?Nat.Div0.mod_0_l in *; lia.
    + split; [done|].
      destruct (lookup_lt_is_Some_2 items (S n mod length items)%nat)
        as [y Hy]; [by apply Nat.mod_upper_bound|].
      exists y. by rewrite Hy.
Qed.

(** X10: an array generator over an empty array yields [undefined] and
    nothing else: after [n] calls of [next()], [current] is [undefined]
    and the history holds [n] times [undefined]. *)
Theorem array_generator_empty (loop : bool) (n : nat) :
  let st := after (useArrayGenerator_options [] loop)
              (useArrayGenerator truthy [] loop) (replicate n Next) in
  current st = undefined ∧ history st = replicate n undefined.
Proof.
  induction n as [|n [IHc IHh]]; [done|].
  rewrite replicate_S_snoc, after_snoc. simpl. unfold next; simpl.
  rewrite IHc, IHh. split; [done|]. by rewrite <-replicate_S_snoc.
Qed.

End ArrayGeneratorFacts.

Section ArrayGeneratorExamples.
Import UseGenerator Generators.

(** X11: [useWordGenerator] cycles through the caller's words, and
    through the ten default words when it is given none; its current
    value is a word of that list at every moment, never [undefined]. *)
Theorem word_generator_cycles (words : list string) (n : nat) :
  (words ≠ [] → wordList words = words)
  ∧ wordList [] = defaultWords
  ∧ ∃ w, wordList words !! (n mod length (wordList words))%nat = Some w
      ∧ current (after (useArrayGenerator_options (wordList words) true)
                   (useWordGenerator words) (replicate n Next)) = val w.
Proof.
  split; [|split; [done|]].
  - intros Hne. unfold wordList. rewrite bool_decide_true; [done|].
    destruct words; [done|simpl; lia].
  - apply array_generator_cycles. unfold wordList.
    case_bool_decide as Hlen; [|done]. by destruct words; [simpl in Hlen; lia|].
Qed.

Lemma counter_generator_nth_witness :
  Double.safe 5 ∧ Double.safe 3 ∧ Double.safe (5 + Z.of_nat 4 * 3)
  ∧ current (after (useCounterGenerator_options 5 3)
               (useCounterGenerator 5 3) (replicate 4 Next))
    = val (Num 17)
  ∧ history (after (useCounterGenerator_options 5 3)
               (useCounterGenerator 5 3) (replicate 4 Next))
    = [val (Num 5); val (Num 8); val (Num 11); val (Num 14); val (Num 17)].
Proof.
  assert (Double.safe 5) as H5 by (unfold Double.safe; lia).
  assert (Double.safe 3) as H3 by (unfold Double.safe; lia).
  assert (Double.safe (5 + Z.of_nat 4 * 3)) as H17
    by (unfold Double.safe; simpl; lia).
  refine (conj H5 (conj H3 (conj H17 _))).
  exact (counter_generator_nth 5 3 4 H5 H3 H17).
Defined.

(** Beyond [2 ^ 53] the counter generator does not count: from [2 ^ 53]
    in steps of 1 it stands still. *)
Example counter_generator_stalls :
  current (after (useCounterGenerator_options (2 ^ 53) 1)
             (useCounterGenerator (2 ^ 53) 1) (replicate 3 Next))
  = val (Num (2 ^ 53)).
Proof. by vm_compute. Qed.

Lemma reset_restores_start_witness :
  initial (useCounterGenerator_options 0 1) = val (Num 0)
  ∧ current (reset (useCounterGenerator_options 0 1) undefined
               (useCounterGenerator 0 1)) = val (Num 0)
  ∧ history (reset (useCounterGenerator_options 0 1) undefined
               (useCounterGenerator 0 1)) = [val (Num 0)]
  ∧ history (useCounterGenerator 0 1) = [].
Proof.
  split; [reflexivity|].
  destruct (reset_restores_start number_truthy
              (useCounterGenerator_options 0 1) (useCounterGenerator 0 1)
              (Num 0) eq_refl) as (Hc & Hh & _).
  split; [exact Hc|]. split; [exact Hh|reflexivity].
Defined.

Lemma word_generator_cycles_witness :
  wordList ["hello"; "world"] = ["hello"; "world"]
  ∧ ∃ w, ["hello"; "world"] !! 1%nat = Some w
      ∧ current (after (useArrayGenerator_options ["hello"; "world"] true)
                   (useWordGenerator ["hello"; "world"]) (replicate 3 Next))
        = val w.
Proof.
  split; [reflexivity|].
  exact (proj2 (proj2 (word_generator_cycles ["hello"; "world"] 3))).
Defined.

Lemma array_generator_reset_keeps_index_witness :
  ["a"; "b"; "c"] ≠ []
  ∧ ∃ x, ["a"; "b"; "c"] !! 2%nat = Some x
    ∧ (next (useArrayGenerator_options ["a"; "b"; "c"] true)
         (after (useArrayGenerator_options ["a"; "b"; "c"] true)
            (useArrayGenerator string_truthy ["a"; "b"; "c"] true)
            [Next; Reset undefined])).1 = val x
    ∧ current (next (useArrayGenerator_options ["a"; "b"; "c"] true)
         (after (useArrayGenerator_options ["a"; "b"; "c"] true)
            (useArrayGenerator string_truthy ["a"; "b"; "c"] true)
            [Next; Reset undefined])).2 = val x.
Proof.
  split; [discriminate|].
  apply (array_generator_reset_keeps_index string_truthy ["a"; "b"; "c"]
           [Next; Reset undefined]).
  discriminate.
Defined.

Lemma array_generator_cycles_witness :
  ["a"; "b"; "c"] ≠ []
  ∧ ∃ x, ["a"; "b"; "c"] !! 1%nat = Some x
    ∧ current (after (useArrayGenerator_options ["a"; "b"; "c"] true)
                 (useArrayGenerator string_truthy ["a"; "b"; "c"] true)
                 (replicate 4 Next)) = val x.
Proof.
  split; [discriminate|].
  apply (array_generator_cycles string_truthy ["a"; "b"; "c"] 4).
  discriminate.
Defined.

Lemma array_generator_no_loop_witness :
  ["a"; "b"; "c"] ≠ []
  ∧ closure (after (useArrayGenerator_options ["a"; "b"; "c"] false)
               (useArrayGenerator string_truthy ["a"; "b"; "c"] false)
               (replicate 4 Next)) = 1%nat
  ∧ ∃ x, ["a"; "b"; "c"] !! 1%nat = Some x
      ∧ current (after (useArrayGenerator_options ["a"; "b"; "c"] false)
                   (useArrayGenerator string_truthy ["a"; "b"; "c"] false)
                   (replicate 4 Next)) = val x.
Proof.
  split; [discriminate|].
  apply (array_generator_no_loop string_truthy ["a"; "b"; "c"] 4).
  discriminate.
Defined.

(** Without looping, over a, b, c: b, c, c, and then b again. *)
Example no_loop_a_b_c :
  (λ n, current (after (useArrayGenerator_options ["a"; "b"; "c"] false)
                   (useArrayGenerator string_truthy ["a"; "b"; "c"] false)
                   (replicate n Next))) <$> [1; 2; 3; 4; 5; 6]%nat
  = [val "b"; val "c"; val "c"; val "b"; val "c"; val "c"].
Proof. reflexivity. Qed.

End ArrayGeneratorExamples.

(** ** useLocalStorage: writing, removing, unmounting *)

Section AssocFacts.
Import UseLocalStorage UseLocalStorageState.
Implicit Types (k v : string) (kvs : list (string * string)).

Lemma assoc_set_eq k v kvs : assoc k (set_assoc k v kvs) = Some v.
Proof.
  induction kvs as [|[k' v'] kvs IH]; simpl.
  - by rewrite decide_True.
  - destruct (decide (k' = k)) as [->|Hne]; simpl.
    + by rewrite decide_True.
    + by rewrite decide_False.
Qed.

Lemma assoc_set_ne k k' v kvs :
  k' ≠ k → assoc k' (set_assoc k v kvs) = assoc k' kvs.
Proof.
  intros Hne. induction kvs as [|[k0 v0] kvs IH]; simpl.
  - by rewrite decide_False.
  - destruct (decide (k0 = k)) as [->|Hne0]; simpl.
    + by rewrite !decide_False.
    + by rewrite IH.
Qed.

Lemma assoc_del_eq k kvs : assoc k (del_assoc k kvs) = None.
Proof.
  unfold del_assoc. induction kvs as [|[k' v'] kvs IH]; [done|].
  rewrite filter_cons; simpl. destruct (decide (k' ≠ k)) as [Hne|]; [|done].
  simpl. by rewrite decide_False.
Qed.

Lemma assoc_del_ne k k' kvs :
  k' ≠ k → assoc k' (del_assoc k kvs) = assoc k' kvs.
Proof.
  intros Hne. unfold del_assoc. induction kvs as [|[k0 v0] kvs IH]; [done|].
  rewrite filter_cons; simpl. destruct (decide (k0 ≠ k)) as [|Heq]; simpl.
  - by rewrite IH.
  - apply dec_stable in Heq as ->. by rewrite decide_False.
Qed.

End AssocFacts.

Section StorageWriteFacts.
Import UseLocalStorage UseLocalStorageState.
Context {T : Type}.
Implicit Types (u : instance T) (w : world T).

(** X12: what [write] stores, [read] gives back: on a storage that
    grants access, after [write(value)] the key holds the text the
    serializer wrote, every other key holds what it held, no error was
    reported, and [read()] returns what the serializer reads from that
    text. *)
Theorem write_then_read u (value : T) w text :
  refused (storage w) = None →
  ser_write (serializer u) value = Normal text →
  ∃ w', write u value w = (Normal tt, w')
    ∧ reported w' = reported w ∧ storedValue w' = storedValue w
    ∧ getItem (key u) (storage w') = Normal (Some text)
    ∧ (∀ k, k ≠ key u → getItem k (storage w') = getItem k (storage w))
    ∧ (∀ v, ser_read (serializer u) text = Normal v →
         read_in u w' = (Normal v, reported w)).
Proof.
  intros Hok Htext. unfold write, setItem. rewrite Htext, Hok.
  eexists; split; [done|]. simpl. split; [done|]. split; [done|].
  unfold read_in, read, try_catch, bind, lift, ret, getItem; simpl.
  rewrite Hok, assoc_set_eq. split; [done|]. split.
  - intros k Hk. by rewrite assoc_set_ne.
  - by intros v ->.
Qed.

(** X13: a [write] that fails changes nothing and throws nothing when
    [onError] returns: if the serializer throws, or the storage does, the
    storage and the stored value are as before and [onError] was called
    once, with that error; the serializer's error comes first. *)
Theorem write_failure_reported u (value : T) w :
  (∀ e, onError u e = Normal tt) →
  (∀ e, ser_write (serializer u) value = Throw e →
     write u value w
     = (Normal tt, {| storedValue := storedValue w; storage := storage w;
                      reported := reported w ++ [e] |}))
  ∧ (∀ text e, ser_write (serializer u) value = Normal text →
     refused (storage w) = Some e →
     write u value w
     = (Normal tt, {| storedValue := storedValue w; storage := storage w;
                      reported := reported w ++ [e] |})).
Proof.
  intros Hon. unfold write, caught, setItem. split.
  - intros e ->. by rewrite Hon.
  - intros text e -> ->. by rewrite Hon.
Qed.

(** X14: after a [remove()] on a storage that grants access the key is
    gone and the stored value is the default value; [read()] then returns
    the default value; the other keys are untouched. *)
Theorem remove_then_read u w :
  refused (storage w) = None →
  ∃ w', remove u w = (Normal tt, w')
    ∧ storedValue w' = defaultValue u
    ∧ reported w' = reported w
    ∧ getItem (key u) (storage w') = Normal None
    ∧ (∀ k, k ≠ key u → getItem k (storage w') = getItem k (storage w))
    ∧ read_in u w' = (Normal (defaultValue u), reported w).
Proof.
  intros Hok. unfold remove, removeItem. rewrite Hok.
  eexists; split; [done|]. simpl. split; [done|]. split; [done|].
  unfold read_in, read, try_catch, bind, lift, ret, getItem; simpl.
  rewrite Hok, assoc_del_eq. split; [done|]. split; [|done].
  intros k Hk. by rewrite assoc_del_ne.
Qed.

(** X15: a removal does not outlive the component: the unmounted hook
    writes the stored value, which after [remove()] is the default value,
    so after [remove()] and an unmount the key is in the storage again,
    with the serialized default value. *)
Theorem remove_then_unmount u w text :
  refused (storage w) = None →
  ser_write (serializer u) (defaultValue u) = Normal text →
  ∃ w1 w2, remove u w = (Normal tt, w1)
    ∧ getItem (key u) (storage w1) = Normal None
    ∧ onUnmounted u w1 = (Normal tt, w2)
    ∧ getItem (key u) (storage w2) = Normal (Some text).
Proof.
  intros Hok Htext.
  destruct (remove_then_read u w Hok) as (w1 & Hrem & Hsv & _ & Hgone & _).
  assert (refused (storage w1) = None) as Hok1.
  { revert Hrem. unfold remove, removeItem. rewrite Hok. by intros [= <-]. }
  rewrite <-Hsv in Htext.
  destruct (write_then_read u (storedValue w1) w1 text Hok1 Htext)
    as (w2 & Hw & _ & _ & Hget & _).
  by exists w1, w2.
Qed.

End StorageWriteFacts.

Section StorageWriteExamples.
Import UseLocalStorage UseLocalStorageState.

Lemma write_then_read_witness :
  refused (storage count_world) = None
  ∧ ser_write (serializer with_defaults) 42 = Normal "42"
  ∧ ∃ w', write with_defaults 42 count_world = (Normal tt, w')
    ∧ reported w' = [] ∧ storedValue w' = 42
    ∧ getItem "count" (storage w') = Normal (Some "42")
    ∧ (∀ k, k ≠ "count" →
         getItem k (storage w') = getItem k (storage count_world))
    ∧ (∀ v, ser_read (serializer with_defaults) "42" = Normal v →
         read_in with_defaults w' = (Normal v, [])).
Proof.
  refine (conj eq_refl (conj eq_refl _)).
  apply (write_then_read with_defaults 42 count_world "42"); reflexivity.
Defined.

Lemma write_failure_reported_witness :
  write with_defaults 42
    {| storedValue := 42; storage := refusing; reported := [] |}
  = (Normal tt, {| storedValue := 42; storage := refusing;
                   reported := ["SecurityError"] |}).
Proof.
  apply (proj2 (write_failure_reported with_defaults 42
    {| storedValue := 42; storage := refusing; reported := [] |}
    (λ e, eq_refl)) "42" "SecurityError"); reflexivity.
Defined.

Lemma remove_then_read_witness :
  refused (storage count_world) = None
  ∧ ∃ w', remove with_defaults count_world = (Normal tt, w')
    ∧ storedValue w' = 0
    ∧ reported w' = []
    ∧ getItem "count" (storage w') = Normal None
    ∧ (∀ k, k ≠ "count" →
         getItem k (storage w') = getItem k (storage count_world))
    ∧ read_in with_defaults w' = (Normal 0, []).
Proof.
  split; [reflexivity|].
  apply (remove_then_read with_defaults count_world). reflexivity.
Defined.

Lemma remove_then_unmount_witness :
  refused (storage count_world) = None
  ∧ ser_write (serializer with_defaults) (defaultValue with_defaults)
    = Normal "0"
  ∧ ∃ w1 w2, remove with_defaults count_world = (Normal tt, w1)
    ∧ getItem "count" (storage w1) = Normal None
    ∧ onUnmounted with_defaults w1 = (Normal tt, w2)
    ∧ getItem "count" (storage w2) = Normal (Some "0").
Proof.
  refine (conj eq_refl (conj eq_refl _)).
  apply (remove_then_unmount with_defaults count_world "0"); reflexivity.
Defined.

End StorageWriteExamples.

(** ** Timers of useScroll and useIdle *)

Section TimerFacts.
Import Dom Timers.
Implicit Types (b : browser) (id : option nat).

Lemma owns_start b : owns b b None false.
Proof.
  unfold owns. rewrite app_nil_r.
  split; [lia|]. split; [done|]. split; [done|]. by intros i.
Qed.

Lemma filter_ne_wf b (i : nat) :
  timers_wf b → (next_timer b ≤ i)%nat → filter (λ j, j ≠ i) (timers b) = timers b.
Proof.
  intros Hwf Hi. apply filter_keeps_all.
  eapply Forall_impl; [exact Hwf|]. simpl. lia.
Qed.

(** Clearing the instance's timer leaves the timers of the page. *)
Lemma owns_clearTimeout b0 b id running :
  timers_wf b0 → owns b0 b id running →
  owns b0 (clearTimeout id b) id false
  ∧ owns b0 (clearTimeout id b) None false.
Proof.
  intros Hwf (Hnext & Htimers & Hrun & Hid).
  assert (timers (clearTimeout id b) = timers b0) as Ht.
  { destruct id as [i|]; simpl.
    - rewrite Htimers, filter_app, filter_ne_wf; [|done|by apply Hid].
      destruct running; simpl; [|by rewrite app_nil_r].
      by rewrite filter_cons_False, filter_nil, app_nil_r by tauto.
    - rewrite Htimers. destruct running; [|by rewrite app_nil_r].
      by destruct Hrun. }
  assert (next_timer (clearTimeout id b) = next_timer b) as Hn by by destruct id.
  unfold owns. rewrite Ht, Hn, app_nil_r. split.
  - split; [done|]. split; [done|]. split; [done|exact Hid].
  - split; [done|]. split; [done|]. split; [done|]. by intros j.
Qed.

Lemma owns_setTimeout b0 b id :
  owns b0 b id false →
  owns b0 (setTimeout b).2 (Some (setTimeout b).1) true.
Proof.
  intros (Hnext & Htimers & _). unfold owns; simpl.
  rewrite Htimers, app_nil_r.
  split; [lia|]. split; [done|]. split; [by eexists|].
  intros j [= <-]. lia.
Qed.

(** A timer of the instance that is not running is not pending. *)
Lemma owns_pending b0 b id running :
  timers_wf b0 → owns b0 b id running →
  is_Some id → pending id b = running.
Proof.
  intros Hwf (Hnext & Htimers & Hrun & Hid) [i Hi]. subst id.
  simpl. rewrite Htimers.
  destruct running; simpl.
  - apply bool_decide_eq_true, elem_of_app. right. by left.
  - apply bool_decide_eq_false. rewrite app_nil_r. intros Hin.
    unfold timers_wf in Hwf. rewrite Forall_forall in Hwf.
    specialize (Hwf _ Hin). specialize (Hid i eq_refl). lia.
Qed.

Lemma owns_listeners b0 b b' id running :
  timers b' = timers b → next_timer b' = next_timer b →
  owns b0 b id running → owns b0 b' id running.
Proof. unfold owns. by intros -> ->. Qed.

Lemma add_all_timers t cb types b :
  timers (foldl (λ b0 ev, addEventListener t ev cb passive_true b0) b types)
    = timers b
  ∧ next_timer (foldl (λ b0 ev, addEventListener t ev cb passive_true b0)
                  b types) = next_timer b.
Proof.
  revert b. induction types as [|ty types IH]; intros b; [done|].
  simpl. by destruct (IH (addEventListener t ty cb passive_true b)) as [-> ->].
Qed.

Lemma remove_all_timers t cb types b :
  timers (foldl (λ b0 ev, removeEventListener t ev cb b0) b types) = timers b.
Proof.
  revert b. induction types as [|ty types IH]; intros b; [done|].
  simpl. by rewrite IH.
Qed.

End TimerFacts.

Section ScrollTimerFacts.
Import Dom Timers UseScroll.
Implicit Types (st : state) (b : browser).

Lemma updateScrollState_owns b0 p st b running :
  timers_wf b0 → owns b0 b (scrollTimeout st) running →
  owns b0 (updateScrollState p st b).2
    (scrollTimeout (updateScrollState p st b).1)
    (isScrolling (updateScrollState p st b).1).
Proof.
  intros Hwf Hown. unfold updateScrollState; simpl.
  destruct (owns_clearTimeout _ _ _ _ Hwf Hown) as [Hc _].
  apply (owns_setTimeout _ _ _ Hc).
Qed.

Lemma scroll_deliver_owns b0 (sb : state * browser) e :
  timers_wf b0 → owns b0 sb.2 (scrollTimeout sb.1) (isScrolling sb.1) →
  owns b0 (deliver sb e).2 (scrollTimeout (deliver sb e).1)
    (isScrolling (deliver sb e).1).
Proof.
  intros Hwf Hown. destruct sb as [st b], e as [p|]; simpl in *.
  - exact (updateScrollState_owns b0 p st b (isScrolling st) Hwf Hown).
  - destruct (pending (scrollTimeout st) b) eqn:Hp; [|done].
    unfold scroll_timer, timer_done; simpl.
    exact (proj1 (owns_clearTimeout _ _ _ _ Hwf Hown)).
Qed.

Lemma scroll_mounted_owns p t cb b evs :
  timers_wf b →
  let sb := foldl deliver (onMounted p (useScroll t cb) b) evs in
  owns b sb.2 (scrollTimeout sb.1) (isScrolling sb.1).
Proof.
  intros Hwf. induction evs as [|e evs IH] using rev_ind.
  - pose proof (updateScrollState_owns b p (useScroll t cb) b false Hwf
                  (owns_start b)) as Hown.
    cbn [foldl]. unfold onMounted.
    destruct (updateScrollState p (useScroll t cb) b) as [st' b'].
    exact (owns_listeners b _ _ _ _ eq_refl eq_refl Hown).
  - rewrite foldl_app. cbn [foldl]. by apply scroll_deliver_owns.
Qed.


Lemma useScroll_timers_released p t cb b evs :
  timers_wf b → timers (lifetime p evs (useScroll t cb) b).2 = timers b.
Proof.
  intros Hwf. unfold lifetime.
  pose proof (scroll_mounted_owns p t cb b evs Hwf) as Hown.
  destruct (foldl deliver _ evs) as [st b']. simpl in *.
  assert (owns b (removeEventListener (scroll_target st) "scroll"
                    (updateScrollState_fn st) b')
            (scrollTimeout st) (isScrolling st)) as Hown'
    by exact (owns_listeners b _ _ _ _ eq_refl eq_refl Hown).
  destruct (owns_clearTimeout _ _ _ _ Hwf Hown') as [(_ & -> & _) _].
  by rewrite app_nil_r.
Qed.

End ScrollTimerFacts.

Section IdleTimerFacts.
Import Dom Timers UseIdle.
Implicit Types (st : state) (b : browser).

Lemma handleActivity_owns b0 now st b :
  timers_wf b0 → idle_owns b0 (st, b) → idle_owns b0 (handleActivity now st b).
Proof.
  intros Hwf [Hown _]. unfold idle_owns, handleActivity; simpl in *.
  split; [|done].
  exact (owns_setTimeout _ _ _ (proj1 (owns_clearTimeout _ _ _ _ Hwf Hown))).
Qed.

Lemma stop_owns b0 st b :
  timers_wf b0 → idle_owns b0 (st, b) →
  idle_owns b0 (stop st b) ∧ timeoutId (stop st b).1 = None
  ∧ timers (stop st b).2 = timers b0.
Proof.
  intros Hwf [Hown _]. unfold idle_owns, stop; simpl in *.
  pose proof (proj2 (owns_clearTimeout _ _ _ _ Hwf Hown)) as Hc.
  split; [done|]. split; [done|].
  destruct Hc as (_ & -> & _). by rewrite app_nil_r.
Qed.

Lemma idle_deliver_owns b0 (sb : state * browser) e :
  timers_wf b0 → idle_owns b0 sb → idle_owns b0 (deliver sb e).
Proof.
  intros Hwf Hown. destruct sb as [st b], e as [now| |now| |now]; simpl.
  - by apply handleActivity_owns.
  - destruct (pending (timeoutId st) b) eqn:Hp; [|done].
    destruct Hown as [Hown _]. unfold idle_owns, idle_timer, timer_done; simpl in *.
    split; [|done]. exact (proj2 (owns_clearTimeout _ _ _ _ Hwf Hown)).
  - by apply handleActivity_owns.
  - by apply stop_owns.
  - destruct (stop_owns b0 st b Hwf Hown) as ([Hs _] & Hnone & _).
    unfold idle_owns, reset, stop in *; simpl in *. done.
Qed.

Lemma idle_mounted_owns now now0 o cb b evs :
  timers_wf b →
  idle_owns b (foldl deliver (onMounted now (useIdle o cb now0) b) evs).
Proof.
  intros Hwf. induction evs as [|e evs IH] using rev_ind.
  - cbn [foldl]. unfold onMounted.
    assert (idle_owns b (useIdle o cb now0, b)) as Hstart.
    { split; [apply owns_start|done]. }
    assert (idle_owns b (if initialState (useIdle o cb now0)
                         then (useIdle o cb now0, b)
                         else start now (useIdle o cb now0) b)) as Hown.
    { destruct (initialState _); [done|by apply handleActivity_owns]. }
    destruct (if initialState _ then _ else _) as [st' b'].
    destruct Hown as [Hown Hidle]. split; [|done]. cbn [fst snd] in *.
    destruct (add_all_timers Document (handleActivity_fn st') (events st') b')
      as [Ht Hn].
    exact (owns_listeners b _ _ _ _ Ht Hn Hown).
  - rewrite foldl_app. cbn [foldl]. by apply idle_deliver_owns.
Qed.

(** X17: a mounted [useIdle] has at most one timer pending, the one
    [timeoutId] names, and none while it is idle: being idle means the
    timer has run, or was stopped, and the next activity event starts a
    new one. *)
Theorem useIdle_one_timer now now0 o cb b evs :
  timers_wf b →
  let sb := foldl deliver (onMounted now (useIdle o cb now0) b) evs in
  (idle sb.1 = true → timeoutId sb.1 = None)
  ∧ (timeoutId sb.1 = None → timers sb.2 = timers b)
  ∧ (∀ i, timeoutId sb.1 = Some i →
       timers sb.2 = timers b ++ [i] ∧ ¬ (i ∈ timers b) ∧ idle sb.1 = false).
Proof.
  intros Hwf sb.
  destruct (idle_mounted_owns now now0 o cb b evs Hwf)
    as [(Hnext & Htimers & _ & Hid) Hidle].
  fold sb in Hnext, Htimers, Hid, Hidle.
  split; [done|]. split.
  - intros Hnone. rewrite Htimers, Hnone. simpl. by rewrite app_nil_r.
  - intros i Hi. rewrite Htimers, Hi. simpl. split; [done|]. split.
    + intros Hin. unfold timers_wf in Hwf. rewrite Forall_forall in Hwf.
      specialize (Hwf _ Hin). specialize (Hid i Hi). lia.
    + destruct (idle sb.1); [|done]. by rewrite Hidle in Hi.
Qed.

(** X29: idleness is detected: an activity event makes a mounted
    [useIdle] not idle and starts its timer; when that timer runs with no
    activity in between, the instance is idle and has no timer pending. *)
Theorem idle_after_timeout now now0 o cb b evs (t : Z) :
  timers_wf b →
  let sp := foldl deliver (onMounted now (useIdle o cb now0) b) evs in
  let sp1 := deliver sp (Activity t) in
  let sp2 := deliver sp1 TimerRan in
  idle sp1.1 = false ∧ lastActive sp1.1 = t
  ∧ pending (timeoutId sp1.1) sp1.2 = true
  ∧ idle sp2.1 = true ∧ timeoutId sp2.1 = None ∧ timers sp2.2 = timers b.
Proof.
  intros Hwf sp sp1 sp2.
  pose proof (idle_mounted_owns now now0 o cb b (evs ++ [Activity t]) Hwf)
    as [Hown _].
  rewrite foldl_app in Hown. cbn [foldl] in Hown. fold sp in Hown.
  fold sp1 in Hown.
  assert (is_Some (timeoutId sp1.1)) as Hsome.
  { unfold sp1. simpl. unfold handleActivity. simpl. by eexists. }
  pose proof (owns_pending _ _ _ _ Hwf Hown Hsome) as Hp.
  rewrite bool_decide_true in Hp by done.
  split; [done|]. split; [done|]. split; [done|].
  unfold sp2. cbn [deliver]. rewrite Hp. unfold idle_timer, timer_done.
  cbn [fst snd idle timeoutId with_refs].
  split; [done|]. split; [done|].
  destruct (owns_clearTimeout _ _ _ _ Hwf Hown) as [(_ & -> & _) _].
  by rewrite app_nil_r.
Qed.

Lemma useIdle_timers_released now now0 o cb b evs :
  timers_wf b → timers (lifetime now evs (useIdle o cb now0) b).2 = timers b.
Proof.
  intros Hwf. unfold lifetime.
  pose proof (idle_mounted_owns now now0 o cb b evs Hwf) as Hown.
  destruct (foldl deliver _ evs) as [st b']. cbn [fst snd].
  unfold onUnmounted.
  destruct (stop_owns b st b' Hwf Hown) as (_ & _ & Ht).
  destruct (stop st b') as [st2 b2]. cbn [fst snd] in *.
  by rewrite remove_all_timers.
Qed.

End IdleTimerFacts.

Section TimerClaims.
Import Dom Timers.

(** X18: [useScroll] and [useIdle] leave no timer behind: after the
    mount, any events, and the unmount, the pending timers of the page
    are those that were pending before the mount. *)
Theorem lifetime_leaves_no_timer b :
  timers_wf b →
  (∀ p evs t cb,
     timers (UseScroll.lifetime p evs (UseScroll.useScroll t cb) b).2
     = timers b)
  ∧ (∀ now now0 evs o cb,
     timers (UseIdle.lifetime now evs (UseIdle.useIdle o cb now0) b).2
     = timers b).
Proof.
  intros Hwf. split.
  - intros. by apply useScroll_timers_released.
  - intros. by apply useIdle_timers_released.
Qed.

Lemma busy_page_wf : timers_wf busy_page.
Proof. repeat constructor. Qed.


Lemma useIdle_one_timer_witness :
  timers_wf busy_page
  ∧ (UseIdle.timeoutId
       (foldl UseIdle.deliver (UseIdle.onMounted 1000 idle_instance busy_page)
          [UseIdle.Activity 2000; UseIdle.TimerRan]).1 = None →
     timers (foldl UseIdle.deliver
               (UseIdle.onMounted 1000 idle_instance busy_page)
               [UseIdle.Activity 2000; UseIdle.TimerRan]).2
     = timers busy_page).
Proof.
  split; [exact busy_page_wf|].
  exact (proj1 (proj2 (useIdle_one_timer 1000 1000
    {| UseIdle.opt_timeout := None; UseIdle.opt_events := None;
       UseIdle.opt_initialState := None |} 3%nat busy_page
    [UseIdle.Activity 2000; UseIdle.TimerRan] busy_page_wf))).
Defined.

Lemma idle_after_timeout_witness :
  timers_wf busy_page
  ∧ UseIdle.idle
      (UseIdle.deliver
         (UseIdle.deliver
            (foldl UseIdle.deliver
               (UseIdle.onMounted 1000 idle_instance busy_page) [UseIdle.Stop])
            (UseIdle.Activity 5000)) UseIdle.TimerRan).1 = true.
Proof.
  split; [exact busy_page_wf|].
  exact (proj1 (proj2 (proj2 (proj2 (idle_after_timeout 1000 1000
    {| UseIdle.opt_timeout := None; UseIdle.opt_events := None;
       UseIdle.opt_initialState := None |} 3%nat busy_page [UseIdle.Stop]
    5000 busy_page_wf))))).
Defined.

Lemma lifetime_leaves_no_timer_witness :
  timers_wf busy_page
  ∧ timers (UseScroll.lifetime scrolled_down
              [UseScroll.Scrolled scrolled_down] scroll_instance busy_page).2
    = timers busy_page
  ∧ timers (UseIdle.lifetime 1000 [UseIdle.Activity 2000] idle_instance
              busy_page).2 = timers busy_page.
Proof.
  split; [exact busy_page_wf|].
  destruct (lifetime_leaves_no_timer busy_page busy_page_wf) as [Hs Hi].
  split; [apply Hs|].
  exact (Hi 1000 1000 [UseIdle.Activity 2000]
    {| UseIdle.opt_timeout := None; UseIdle.opt_events := None;
       UseIdle.opt_initialState := None |} 3%nat).
Defined.

End TimerClaims.

(** ** useCounter *)

Section CounterFacts.
Import UseCounter.
Implicit Types (st : state) (c : call).

Lemma with_count_id st : with_count st (count st) = st.
Proof. by destruct st. Qed.

Lemma clamp_in_range value st :
  bounds_ordered st → in_range (set value st).
Proof.
  unfold bounds_ordered, in_range, set, clamp, ge_min, le_max; simpl.
  destruct (minRef st) as [lo|], (maxRef st) as [hi|]; intros; split; lia.
Qed.

(** The bounds, the step and the initial value never change. *)
Lemma step_constants st c :
  minRef (step st c) = minRef st ∧ maxRef (step st c) = maxRef st
  ∧ stepRef (step st c) = stepRef st
  ∧ initialValue (step st c) = initialValue st.
Proof.
  destruct c as [d|d|v|]; simpl; unfold inc, dec; try done.
  - by destruct (le_max _ _).
  - by destruct (ge_min _ _).
Qed.

Lemma step_in_range st c :
  bounds_safe st → bounds_ordered st → in_range (reset st) → forward st c →
  in_range st → in_range (step st c).
Proof.
  intros [Hslo Hshi] Hord Hreset Hfwd Hin. pose proof Hin as [Hlo Hhi].
  destruct c as [d|d|v|]; simpl in *.
  - unfold inc.
    destruct (le_max (Double.add (count st) (default (stepRef st) d))
                (maxRef st)) eqn:Hle; [|done].
    split; [|done]. unfold ge_min in *; simpl.
    destruct (minRef st) as [lo|]; [|done].
    apply Z.leb_le, round_ge; [done|lia].
  - unfold dec.
    destruct (ge_min (Double.sub (count st) (default (stepRef st) d))
                (minRef st)) eqn:Hge; [|done].
    split; [done|]. unfold le_max in *; simpl.
    destruct (maxRef st) as [hi|]; [|done].
    apply Z.leb_le, round_le; [done|lia].
  - by apply clamp_in_range.
  - done.
Qed.

Lemma run_in_range st0 (calls : list call) : ∀ st,
  stepRef st = stepRef st0 → bounds_safe st → bounds_ordered st →
  in_range st → in_range (reset st) → Forall (forward st0) calls →
  in_range (foldl step st calls).
Proof.
  induction calls as [|c calls IH];
    intros st Hstep Hsafe Hord Hin Hreset Hfwd; [done|].
  apply Forall_cons in Hfwd as [Hc Hfwd]. simpl.
  destruct (step_constants st c) as (Hmin & Hmax & Hs & Hini).
  assert (forward st c) as Hc'.
  { destruct c; simpl in *; by rewrite ?Hstep. }
  apply IH; [congruence| | | | |done].
  - unfold bounds_safe. by rewrite Hmin, Hmax.
  - unfold bounds_ordered. by rewrite Hmin, Hmax.
  - by apply step_in_range.
  - unfold in_range, reset in *; simpl in *. by rewrite Hmin, Hmax, Hini.
Qed.

(** X19: the count stays within the bounds: for a counter over integers
    whose given bounds lie within [2 ^ 53], whose minimum is not above its
    maximum and whose initial value is within them, the count is within
    them after any calls of [inc], [dec], [set] and [reset] whose deltas
    (the step, when none is given) are not negative.  A negative delta is
    checked against one bound only: an [inc] whose sum, within [2 ^ 53],
    lands below the minimum is carried out. *)
Theorem counter_stays_in_range (initialValue : Z) (o : UseCounterOptions)
    (calls : list call) :
  let st0 := useCounter initialValue o in
  (bounds_safe st0 → bounds_ordered st0 → in_range st0 →
   Forall (forward st0) calls →
   in_range (foldl step st0 calls))
  ∧ (∀ st d, Double.safe (count st + d) →
       le_max (count st + d) (maxRef st) = true →
       ge_min (count st + d) (minRef st) = false →
       count (inc (Some d) st) = count st + d ∧ ¬ in_range (inc (Some d) st)).
Proof.
  intros st0. split.
  - intros Hsafe Hord Hin Hfwd. by apply (run_in_range st0).
  - intros st d Hsafe Hle Hge. unfold inc; simpl.
    rewrite add_safe by done. rewrite Hle; simpl.
    split; [done|]. unfold in_range; simpl. rewrite Hge. by intros [? _].
Qed.

(** X20: [set] clamps: the count it leaves is never above the maximum;
    it is within the bounds when the minimum is not above the maximum, and
    is the value itself when that is within the bounds; a value below the
    minimum gives the minimum, one above the maximum the maximum. *)
Theorem set_clamps (value : Z) st :
  le_max (count (set value st)) (maxRef st) = true
  ∧ (bounds_ordered st → in_range (set value st))
  ∧ (in_range (with_count st value) → count (set value st) = value)
  ∧ (∀ lo, bounds_ordered st → minRef st = Some lo → value ≤ lo →
       count (set value st) = lo)
  ∧ (∀ hi, maxRef st = Some hi → hi ≤ value → count (set value st) = hi).
Proof.
  split; [|split; [by apply clamp_in_range|split; [|split]]].
  - unfold set, clamp, le_max; simpl.
    destruct (minRef st), (maxRef st); lia.
  - unfold in_range, set, clamp, ge_min, le_max; simpl.
    destruct (minRef st), (maxRef st); intros [??]; lia.
  - unfold bounds_ordered, set, clamp; simpl. intros lo Hord Hmin Hle.
    rewrite Hmin in *. destruct (maxRef st); lia.
  - unfold set, clamp; simpl. intros hi -> Hle. destruct (minRef st); lia.
Qed.

(** X21: [inc()] and [dec()] agree with [canIncrement] and
    [canDecrement], and, for integers within [2 ^ 53], undo each other:
    when [canIncrement] is false [inc()] changes nothing; when it is true,
    the count is not below the minimum, and count, step and their sum are
    within [2 ^ 53], [dec()] after [inc()] gives back the state; and the
    same with the two exchanged. *)
Theorem inc_dec_round_trip st :
  (canIncrement st = false → inc None st = st)
  ∧ (canDecrement st = false → dec None st = st)
  ∧ (Double.safe (count st) → Double.safe (stepRef st) →
     Double.safe (count st + stepRef st) →
     canIncrement st = true → ge_min (count st) (minRef st) = true →
     count (inc None st) = count st + stepRef st
     ∧ dec None (inc None st) = st)
  ∧ (Double.safe (count st) → Double.safe (stepRef st) →
     Double.safe (count st - stepRef st) →
     canDecrement st = true → le_max (count st) (maxRef st) = true →
     count (dec None st) = count st - stepRef st
     ∧ inc None (dec None st) = st).
Proof.
  unfold canIncrement, canDecrement, inc, dec; simpl.
  split; [by intros ->|]. split; [by intros ->|]. split.
  - intros Hc _ Hsum. rewrite (add_safe _ _ Hsum).
    intros -> Hge; simpl. split; [done|].
    rewrite sub_safe;
      replace (count st + stepRef st - stepRef st) with (count st) by lia;
      [|done].
    rewrite Hge. by destruct st.
  - intros Hc _ Hdiff. rewrite (sub_safe _ _ Hdiff).
    intros -> Hle; simpl. split; [done|].
    rewrite add_safe;
      replace (count st - stepRef st + stepRef st) with (count st) by lia;
      [|done].
    rewrite Hle. by destruct st.
Qed.

(** X22: at a bound there is no step further: with a positive integer
    step that does not take the count out of [2 ^ 53], [isAtMax] makes
    [canIncrement] false and [inc()] a no-op, and [isAtMin] does the same
    for [canDecrement] and [dec()]. *)
Theorem at_bound_cannot_move st :
  0 < stepRef st →
  (Double.safe (count st + stepRef st) → isAtMax st = true →
   canIncrement st = false ∧ inc None st = st)
  ∧ (Double.safe (count st - stepRef st) → isAtMin st = true →
     canDecrement st = false ∧ dec None st = st).
Proof.
  intros Hstep. unfold isAtMax, isAtMin, canIncrement, canDecrement, inc, dec.
  simpl. split.
  - intros Hsum. rewrite (add_safe _ _ Hsum).
    destruct (maxRef st) as [hi|]; [|done]. simpl. intros Hat.
    assert ((count st + stepRef st <=? hi) = false) as -> by lia. done.
  - intros Hdiff. rewrite (sub_safe _ _ Hdiff).
    destruct (minRef st) as [lo|]; [|done]. simpl. intros Hat.
    assert ((lo <=? count st - stepRef st) = false) as -> by lia. done.
Qed.

End CounterFacts.

Section CounterExamples.
Import UseCounter.

Lemma counter_stays_in_range_witness :
  bounds_safe zero_to_ten ∧ bounds_ordered zero_to_ten ∧ in_range zero_to_ten
  ∧ in_range (foldl step
      (useCounter 0 {| opt_min := Some 0; opt_max := Some 10;
                       opt_step := Some 2 |})
      [CallInc None; CallInc (Some 20); CallSet 50; CallDec (Some 3);
       CallReset; CallDec None]).
Proof.
  assert (Double.safe 0 ∧ Double.safe 10) as Hsafe
    by (unfold Double.safe; lia).
  split; [exact Hsafe|]. split; [done|]. split; [done|].
  apply (proj1 (counter_stays_in_range 0
    {| opt_min := Some 0; opt_max := Some 10; opt_step := Some 2 |}
    [CallInc None; CallInc (Some 20); CallSet 50; CallDec (Some 3);
     CallReset; CallDec None])).
  - exact Hsafe.
  - done.
  - done.
  - repeat constructor; simpl; lia.
Defined.

Lemma set_clamps_witness :
  bounds_ordered zero_to_ten
  ∧ count (set (-3) zero_to_ten) = 0 ∧ count (set 12 zero_to_ten) = 10.
Proof.
  split; [done|].
  destruct (set_clamps (-3) zero_to_ten) as (_ & _ & _ & Hlo & _).
  destruct (set_clamps 12 zero_to_ten) as (_ & _ & _ & _ & Hhi).
  split; [apply Hlo; [done|reflexivity|lia]|apply Hhi; [reflexivity|lia]].
Defined.

Lemma inc_dec_round_trip_witness :
  Double.safe (count zero_to_ten) ∧ Double.safe (stepRef zero_to_ten)
  ∧ Double.safe (count zero_to_ten + stepRef zero_to_ten)
  ∧ canIncrement zero_to_ten = true
  ∧ ge_min (count zero_to_ten) (minRef zero_to_ten) = true
  ∧ count (inc None zero_to_ten) = 7
  ∧ dec None (inc None zero_to_ten) = zero_to_ten.
Proof.
  assert (Double.safe (count zero_to_ten)) as Hc
    by (unfold Double.safe; simpl; lia).
  assert (Double.safe (stepRef zero_to_ten)) as Hs
    by (unfold Double.safe; simpl; lia).
  assert (Double.safe (count zero_to_ten + stepRef zero_to_ten)) as Hsum
    by (unfold Double.safe; simpl; lia).
  refine (conj Hc (conj Hs (conj Hsum (conj eq_refl (conj eq_refl _))))).
  exact (proj1 (proj2 (proj2 (inc_dec_round_trip zero_to_ten)))
           Hc Hs Hsum eq_refl eq_refl).
Defined.

Lemma at_bound_cannot_move_witness :
  0 < stepRef (set 10 zero_to_ten)
  ∧ Double.safe (count (set 10 zero_to_ten) + stepRef (set 10 zero_to_ten))
  ∧ isAtMax (set 10 zero_to_ten) = true
  ∧ canIncrement (set 10 zero_to_ten) = false
  ∧ inc None (set 10 zero_to_ten) = set 10 zero_to_ten.
Proof.
  assert (0 < stepRef (set 10 zero_to_ten)) as H by (simpl; lia).
  assert (Double.safe
            (count (set 10 zero_to_ten) + stepRef (set 10 zero_to_ten)))
    as Hsum by (unfold Double.safe; simpl; lia).
  split; [exact H|]. split; [exact Hsum|]. split; [reflexivity|].
  exact (proj1 (at_bound_cannot_move (set 10 zero_to_ten) H) Hsum eq_refl).
Defined.

(** Below the minimum by [inc]: from 5, [inc(-7)] gives -2. *)
Example inc_below_min : count (inc (Some (-7)) zero_to_ten) = -2.
Proof. reflexivity. Qed.

(** Where the sums are rounded: from [2 ^ 53 - 1], [inc()] by 2 gives
    [2 ^ 53], which the maximum admits, and [dec()] after it gives
    [2 ^ 53 - 2], not the count there was; and at the maximum [2 ^ 53]
    a step of 1 leaves [canIncrement] true. *)
Example inc_dec_rounded :
  count near_limit = 2 ^ 53 - 1
  ∧ count (inc None near_limit) = 2 ^ 53
  ∧ count (dec None (inc None near_limit)) = 2 ^ 53 - 2
  ∧ isAtMax at_limit = true ∧ canIncrement at_limit = true.
Proof. by vm_compute. Qed.

End CounterExamples.

(** ** useIntersectionObserver *)

Section ObserverFacts.
Import UseIntersectionObserver.
Implicit Types (st : state) (pg : page) (init : ObserverInit).

Lemma lookup_last_made (pre : page) (ob : Observer) :
  (pre ++ [ob]) !! length pre = Some ob.
Proof. by apply list_lookup_middle. Qed.

Lemma insert_last_made (pre : page) (ob ob' : Observer) :
  <[length pre := ob']> (pre ++ [ob]) = pre ++ [ob'].
Proof.
  rewrite insert_app_r_alt by lia. by rewrite Nat.sub_diag.
Qed.

Lemma disconnect_last (pre : page) ob :
  disconnect (length pre) (pre ++ [ob])
  = pre ++ [{| obs_init := obs_init ob; observed := [] |}].
Proof. unfold disconnect. by rewrite lookup_last_made, insert_last_made. Qed.

Lemma observe_last (pre : page) ob el :
  observe (length pre) el (pre ++ [ob])
  = pre ++ [{| obs_init := obs_init ob;
               observed := if decide (el ∈ observed ob) then observed ob
                           else observed ob ++ [el] |}].
Proof. unfold observe. by rewrite lookup_last_made, insert_last_made. Qed.

Lemma unobserve_last (pre : page) ob el :
  unobserve (length pre) el (pre ++ [ob])
  = pre ++ [{| obs_init := obs_init ob;
               observed := filter (λ e, e ≠ el) (observed ob) |}].
Proof. unfold unobserve. by rewrite lookup_last_made, insert_last_made. Qed.

Lemma stop_kept pg0 init st pg :
  observers_kept pg0 init (st, pg) →
  observers_kept pg0 init (stop st pg) ∧ observer (stop st pg).1 = None.
Proof.
  intros (Hc & olds & Holds & Hcur). simpl in *. split; [|done].
  split; [done|]. simpl. destruct (observer st) as [id|].
  - destruct Hcur as (ob & el & -> & -> & Hinit & _ & _).
    exists (olds ++ [{| obs_init := obs_init ob; observed := [] |}]).
    split; [|by rewrite disconnect_last, app_assoc].
    apply Forall_app. split; [done|]. by repeat constructor.
  - by exists olds.
Qed.

Lemma setupObserver_kept pg0 init target st pg :
  observers_kept pg0 init (st, pg) → observer st = None →
  observers_kept pg0 init (setupObserver target st pg).
Proof.
  intros (Hc & olds & Holds & Hcur) Hnone. simpl in *.
  rewrite Hnone in Hcur. subst pg. unfold setupObserver.
  destruct (isSupported st); simpl.
  2:{ split; [done|]. exists olds. simpl. by rewrite Hnone. }
  destruct target as [el|].
  2:{ split; [done|]. exists olds. simpl. by rewrite Hnone. }
  unfold new_observer. simpl. split; [done|]. exists olds. split; [done|].
  simpl. eexists _, el. rewrite observe_last. simpl.
  split; [done|]. split; [done|]. split; [done|]. split; [done|].
  by right.
Qed.

Lemma start_kept pg0 init target st pg :
  observers_kept pg0 init (st, pg) →
  observers_kept pg0 init (start target st pg).
Proof.
  intros Hk. unfold start. destruct (observer st) as [id|] eqn:Hobs.
  - destruct (stop_kept pg0 init st pg Hk) as [Hk' Hnone].
    destruct (stop st pg) as [st' pg']. by apply setupObserver_kept.
  - by apply setupObserver_kept.
Qed.

Lemma deliver_kept pg0 init (sp : state * page) e :
  observers_kept pg0 init sp → observers_kept pg0 init (deliver sp e).
Proof.
  intros Hk. destruct sp as [st pg], e as [t| | | |o t|es]; simpl.
  - by apply start_kept.
  - by apply stop_kept.
  - destruct Hk as (Hc & olds & Holds & Hcur). simpl in *. unfold pause.
    destruct (observer st) as [id|] eqn:Hobs.
    2:{ split; [done|]. exists olds. simpl. by rewrite Hobs. }
    destruct Hcur as (ob & el & -> & -> & Hinit & Htarget & Hobserved).
    rewrite Htarget. split; [done|]. exists olds. split; [done|]. simpl.
    rewrite Hobs, unobserve_last. eexists _, el.
    split; [done|]. split; [done|]. split; [done|]. split; [done|].
    left. simpl. destruct Hobserved as [->| ->]; [done|].
    by rewrite filter_cons_False, filter_nil by tauto.
  - destruct Hk as (Hc & olds & Holds & Hcur). simpl in *. unfold resume.
    destruct (observer st) as [id|] eqn:Hobs.
    2:{ split; [done|]. exists olds. simpl. by rewrite Hobs. }
    destruct Hcur as (ob & el & -> & -> & Hinit & Htarget & Hobserved).
    rewrite Htarget. split; [done|]. exists olds. split; [done|]. simpl.
    rewrite Hobs, observe_last. eexists _, el.
    split; [done|]. split; [done|]. split; [done|]. split; [done|].
    right. simpl. destruct Hobserved as [->| ->].
    + by rewrite decide_False by set_solver.
    + by rewrite decide_True by set_solver.
  - unfold updateOptions. apply start_kept.
    destruct Hk as (Hc & olds & Holds & Hcur). split; [done|]. by exists olds.
  - destruct (live (observer st) pg); [|done].
    destruct Hk as (Hc & olds & Holds & Hcur). split; [done|]. by exists olds.
Qed.

Lemma mounted_kept pg0 o supported target evs :
  observers_kept pg0 (const_init (useIntersectionObserver o supported))
    (foldl deliver
       (onMounted target (useIntersectionObserver o supported) pg0) evs).
Proof.
  induction evs as [|e evs IH] using rev_ind.
  - cbn [foldl]. apply setupObserver_kept; [|done].
    split; [done|]. exists []. split; [done|]. simpl. by rewrite app_nil_r.
  - rewrite foldl_app. cbn [foldl]. by apply deliver_kept.
Qed.

(** X23: a mounted [useIntersectionObserver] has at most one observer at
    work: of the observers it has made, only the current one observes
    anything, and that one observes its target element and nothing else;
    the observers the page had before are as they were. *)
Theorem one_observer_one_target pg0 o supported target evs :
  let sp := foldl deliver
              (onMounted target (useIntersectionObserver o supported) pg0)
              evs in
  ∃ made, sp.2 = pg0 ++ made
    ∧ ∀ i ob, made !! i = Some ob →
        observed ob = []
        ∨ (observer sp.1 = Some (length pg0 + i)%nat
           ∧ ∃ el, targetElement sp.1 = Some el ∧ observed ob = [el]).
Proof.
  intros sp.
  destruct (mounted_kept pg0 o supported target evs)
    as (_ & olds & Holds & Hcur).
  fold sp in Hcur. destruct (observer sp.1) as [id|].
  - destruct Hcur as (ob & el & -> & -> & _ & Htarget & Hobserved).
    exists (olds ++ [ob]). split; [by rewrite app_assoc|].
    intros i ob' Hi. apply lookup_app_Some in Hi as [Hi|[Hge Hi]].
    + left. rewrite Forall_forall in Holds.
      apply list_elem_of_lookup_2 in Hi. by destruct (Holds ob' Hi).
    + apply list_lookup_singleton_Some in Hi as [Hi <-].
      destruct Hobserved as [->|Hel]; [by left|]. right.
      split; [|by exists el]. f_equal. rewrite length_app. lia.
  - exists olds. split; [done|]. intros i ob Hi. left.
    rewrite Forall_forall in Holds.
    apply list_elem_of_lookup_2 in Hi. by destruct (Holds ob Hi).
Qed.

(** X24: [updateOptions] does not reach the observer: it assigns the new
    members to the options object and starts again, but every observer
    the instance makes, before and after, is constructed with the
    threshold, root and margin the options had when
    [useIntersectionObserver] was called. *)
Theorem updateOptions_keeps_constants pg0 o supported target evs
    newOptions target' :
  let sp := foldl deliver
              (onMounted target (useIntersectionObserver o supported) pg0)
              evs in
  let sp' := deliver sp (UpdateOptions newOptions target') in
  options sp'.1 = assign (options sp.1) newOptions
  ∧ ∃ made, sp'.2 = pg0 ++ made
      ∧ Forall (λ ob, obs_init ob
                      = {| init_threshold := default [0] (threshold o);
                           init_root := root o;
                           init_rootMargin := default "0px" (rootMargin o) |})
          made.
Proof.
  intros sp sp'. split.
  - unfold sp'. simpl. unfold updateOptions, start, setupObserver, stop.
    destruct (observer sp.1); simpl;
      destruct (isSupported sp.1); simpl; try done;
      by destruct target'.
  - pose proof (deliver_kept pg0 _ sp (UpdateOptions newOptions target')
                  (mounted_kept pg0 o supported target evs))
      as (_ & olds & Holds & Hcur).
    fold sp' in Hcur. destruct (observer sp'.1) as [id|].
    + destruct Hcur as (ob & el & -> & _ & Hinit & _).
      exists (olds ++ [ob]). split; [by rewrite app_assoc|].
      apply Forall_app. split; [|by repeat constructor].
      eapply Forall_impl; [done|]. by intros ? [? _].
    + exists olds. split; [done|].
      eapply Forall_impl; [done|]. by intros ? [? _].
Qed.

(** X25: the unmount leaves no observer of the instance at work: after
    the mount, any calls and reports, and the unmount, every observer the
    instance has made observes nothing, and the observers the page had
    before are as they were. *)
Theorem observers_released pg0 o supported target evs :
  ∃ made,
    (lifetime target evs (useIntersectionObserver o supported) pg0).2
    = pg0 ++ made
    ∧ Forall (λ ob, observed ob = []) made
    ∧ observer (lifetime target evs (useIntersectionObserver o supported)
                  pg0).1 = None.
Proof.
  unfold lifetime, onUnmounted.
  pose proof (mounted_kept pg0 o supported target evs) as Hk.
  destruct (foldl deliver _ evs) as [st pg]. cbn [fst snd].
  destruct (stop_kept pg0 _ st pg Hk) as [(_ & olds & Holds & Hcur) Hnone].
  rewrite Hnone in Hcur. exists olds. split; [done|]. split; [|done].
  eapply Forall_impl; [done|]. by intros ? [_ ?].
Qed.

(** X26: [pause] and [resume] undo each other: on an observer that
    observes its target element, [pause()] stops the observation and
    leaves the refs alone, and [resume()] after it gives back the state
    and the page there were. *)
Theorem pause_resume st pg (id : nat) ob (el : Element) :
  observer st = Some id → targetElement st = Some el →
  pg !! id = Some ob → observed ob = [el] →
  (pause st pg).1 = st
  ∧ (∃ ob', (pause st pg).2 !! id = Some ob' ∧ observed ob' = [])
  ∧ resume (pause st pg).1 (pause st pg).2 = (st, pg).
Proof.
  intros Hobs Htarget Hid Hel. unfold page in *.
  assert (id < length pg)%nat as Hlt by by eapply lookup_lt_Some.
  assert (pause st pg
          = (st, <[id := {| obs_init := obs_init ob; observed := [] |}]> pg))
    as Hp.
  { unfold pause, unobserve, page. rewrite Hobs, Htarget, Hid, Hel.
    by rewrite filter_cons_False, filter_nil by tauto. }
  rewrite Hp. cbn [fst snd]. split; [done|]. split.
  { eexists. split; [by apply list_lookup_insert_eq|done]. }
  unfold resume, observe, page. rewrite Hobs, Htarget.
  rewrite list_lookup_insert_eq by done. cbn.
  rewrite list_insert_insert_eq. f_equal.
  apply list_insert_id. rewrite Hid. f_equal. destruct ob; simpl in *.
  by rewrite Hel.
Qed.

End ObserverFacts.

Section ObserverExamples.
Import UseIntersectionObserver.

Lemma one_observer_one_target_witness :
  ∃ made,
    (foldl deliver (onMounted (Some 9%nat) lazy_image some_page)
       [Pause; Start (Some 9%nat)]).2 = some_page ++ made
    ∧ ∀ i ob, made !! i = Some ob →
        observed ob = []
        ∨ (observer (foldl deliver
                       (onMounted (Some 9%nat) lazy_image some_page)
                       [Pause; Start (Some 9%nat)]).1
           = Some (length some_page + i)%nat
           ∧ ∃ el, targetElement
                     (foldl deliver
                        (onMounted (Some 9%nat) lazy_image some_page)
                        [Pause; Start (Some 9%nat)]).1 = Some el
             ∧ observed ob = [el]).
Proof.
  exact (one_observer_one_target some_page
           {| threshold := Some [100]; root := None; rootMargin := None |}
           true (Some 9%nat) [Pause; Start (Some 9%nat)]).
Defined.

Lemma pause_resume_witness :
  let sp := onMounted (Some 9%nat) lazy_image some_page in
  observer sp.1 = Some 1%nat ∧ targetElement sp.1 = Some 9%nat
  ∧ (pause sp.1 sp.2).1 = sp.1
  ∧ resume (pause sp.1 sp.2).1 (pause sp.1 sp.2).2 = (sp.1, sp.2).
Proof.
  intros sp. refine (conj eq_refl (conj eq_refl _)).
  destruct (pause_resume sp.1 sp.2 1%nat
              {| obs_init := const_init lazy_image; observed := [9%nat] |}
              9%nat eq_refl eq_refl eq_refl eq_refl) as (H1 & _ & H2).
  by split.
Defined.

(** After [updateOptions({ threshold: 0.9 })] the options object says
    0.9 and the new observer is constructed with 0.1. *)
Example updateOptions_on_lazy_image :
  let sp := deliver (onMounted (Some 9%nat) lazy_image some_page)
              (UpdateOptions {| threshold := Some [900]; root := None;
                                rootMargin := None |} (Some 9%nat)) in
  threshold (options sp.1) = Some [900]
  ∧ (init_threshold ∘ obs_init) <$> sp.2 = [[500]; [100]; [100]]
  ∧ observed <$> sp.2 = [[3%nat; 4%nat]; []; [9%nat]].
Proof. by vm_compute. Qed.

End ObserverExamples.

(** ** useIdGenerator *)

Section IdGeneratorFacts.
Import UseGenerator Generators IdGenerator.

Lemma string_of_uint_digits (d : Decimal.uint) :
  all_digits (DecimalString.NilEmpty.string_of_uint d) = true.
Proof. induction d; simpl; by rewrite ?IHd. Qed.

Lemma number_to_string_digits (n : N) :
  all_digits (number_to_string n) = true.
Proof. apply string_of_uint_digits. Qed.

Lemma number_to_string_nonempty (n : N) : number_to_string n ≠ "".
Proof.
  unfold number_to_string. destruct n as [|p]; [done|]. simpl.
  destruct (Pos.to_uint p) eqn:Hp; try done.
  pose proof (DecimalPos.Unsigned.to_uint_nonnil p). congruence.
Qed.

Lemma parseInt_number_to_string (n : N) :
  parseInt (number_to_string n) = Some n.
Proof.
  unfold parseInt. pose proof (number_to_string_nonempty n) as Hne.
  destruct (number_to_string n) eqn:Hs; [done|]. rewrite <-Hs.
  unfold number_to_string. rewrite DecimalString.NilEmpty.usu. simpl.
  by rewrite DecimalN.Unsigned.of_to.
Qed.

Lemma trailing_digits_all (s : string) :
  all_digits s = true → trailing_digits s = s.
Proof.
  destruct s as [|c s]; [done|]. simpl. intros H. by rewrite H.
Qed.

Lemma all_digits_app (s t : string) :
  all_digits (String.append s t) = all_digits s && all_digits t.
Proof.
  induction s as [|c s IH]; simpl; [done|]. by rewrite IH, andb_assoc.
Qed.

(** After a prefix that ends with no digit, the digits the string ends
    with are those that were appended. *)
Lemma trailing_digits_app (prefix ds : string) :
  trailing_digits prefix = "" → all_digits ds = true →
  trailing_digits (String.append prefix ds) = ds.
Proof.
  intros Hp Hds. induction prefix as [|c p IH]; simpl.
  { by apply trailing_digits_all. }
  simpl in Hp. rewrite all_digits_app, Hds, andb_true_r.
  destruct (is_digit c && all_digits p) eqn:Hc; [done|]. by apply IH.
Qed.

(** X27: the ids of [useIdGenerator(prefix, start)] are sequential when
    the prefix ends with no digit: after [n] calls of [next()], [current]
    is the prefix followed by [start + n] in decimal. *)
Theorem id_generator_nth (prefix : string) (start : N) (n : nat) :
  trailing_digits prefix = "" →
  (start + N.of_nat n < 2 ^ 53)%N →
  current (after (useIdGenerator_options prefix start)
             (useIdGenerator prefix start) (replicate n Next))
  = val (String.append prefix (number_to_string (start + N.of_nat n))).
Proof.
  intros Hp _. induction n as [|n IH].
  - simpl. by rewrite N.add_0_r.
  - rewrite replicate_S_snoc, after_snoc. simpl. unfold next.
    rewrite IH. cbn [getNext useIdGenerator_options fst snd current].
    rewrite trailing_digits_app by auto using number_to_string_digits.
    pose proof (number_to_string_nonempty (start + N.of_nat n)) as Hne.
    destruct (number_to_string (start + N.of_nat n)) eqn:Hs; [done|].
    rewrite <-Hs, parseInt_number_to_string. simpl. unfold make_id.
    do 3 f_equal. lia.
Qed.

Lemma id_generator_nth_witness :
  trailing_digits "item" = ""
  ∧ current (after (useIdGenerator_options "item" 1)
               (useIdGenerator "item" 1) (replicate 2 Next))
    = val "item3".
Proof.
  split; [reflexivity|].
  exact (id_generator_nth "item" 1 2 eq_refl eq_refl).
Defined.

(** With a prefix that ends with a digit the ids are not sequential: the
    digit of the prefix is read as part of the number. *)
Example id_generator_digit_prefix :
  current <$> states (useIdGenerator_options "a1" 2) (useIdGenerator "a1" 2)
                [Next; Next]
  = [val "a113"; val "a1114"].
Proof. by vm_compute. Qed.

End IdGeneratorFacts.

(** ** useIntersectionObserverMultiple *)

Section MultipleFacts.
Import UseIntersectionObserver UseIntersectionObserverMultiple.
Implicit Types (st : state) (es : list IntersectionObserverEntry).

Lemma record_entries_lookup (r : Results) es (t : Element) :
  foldl record_entry r es t
  = match last_entry_for t es with
    | Some e => Some {| res_isIntersecting := entry_isIntersecting e;
                        res_intersectionRatio := entry_intersectionRatio e;
                        res_target := entry_target e; res_entry := e |}
    | None => r t
    end.
Proof.
  unfold last_entry_for. induction es as [|e es IH] using rev_ind; [done|].
  rewrite foldl_app, filter_app. simpl. unfold record_entry at 1.
  rewrite filter_cons, filter_nil.
  destruct (decide (entry_target e = t)) as [Heq|Hne].
  - by rewrite last_snoc.
  - by rewrite app_nil_r.
Qed.

(** X28: after a report the results hold, for each target, the last
    entry the batch has for it, and what they held before for a target
    the batch does not mention; a target never reported reads as not
    intersecting with ratio 0, and so does every target after [stop()]. *)
Theorem results_hold_last_entry st es (t : Element) :
  (∀ e, last_entry_for t es = Some e →
     isIntersecting (callback es st) t = entry_isIntersecting e
     ∧ getIntersectionRatio (callback es st) t = entry_intersectionRatio e
     ∧ res_entry <$> getResult (callback es st) t = Some e)
  ∧ (last_entry_for t es = None →
     getResult (callback es st) t = getResult st t)
  ∧ (getResult st t = None →
     isIntersecting st t = false ∧ getIntersectionRatio st t = 0)
  ∧ (∀ pg, getResult (stop st pg).1 t = None).
Proof.
  unfold isIntersecting, getIntersectionRatio, getResult, callback; simpl.
  rewrite record_entries_lookup.
  split; [by intros e ->|]. split; [by intros ->|]. split; [by intros ->|done].
Qed.

End MultipleFacts.

Section MultipleExamples.
Import UseIntersectionObserver UseIntersectionObserverMultiple.

Lemma results_hold_last_entry_witness :
  let es := [ {| entry_target := 3%nat; entry_isIntersecting := true;
                 entry_intersectionRatio := 400 |};
              {| entry_target := 5%nat; entry_isIntersecting := true;
                 entry_intersectionRatio := 1000 |};
              {| entry_target := 3%nat; entry_isIntersecting := false;
                 entry_intersectionRatio := 0 |} ] in
  let st := useIntersectionObserverMultiple
              {| threshold := None; root := None; rootMargin := None |}
              true in
  isIntersecting (callback es st) 3%nat = false
  ∧ getIntersectionRatio (callback es st) 3%nat = 0.
Proof.
  intros es st.
  destruct (proj1 (results_hold_last_entry st es 3%nat)
              {| entry_target := 3%nat; entry_isIntersecting := false;
                 entry_intersectionRatio := 0 |} eq_refl) as (H1 & H2 & _).
  by split.
Defined.

End MultipleExamples.
